(** * Worker pool and connection pool of zhangjunfang/rpc

    Two packages are embedded here.

    - [TcpPool]: package [tcpPool] (tcpPool.go, connect.go), a bounded cache
      of reusable connections built on a buffered channel.  Its methods
      are functions that pass the pool and the outside world along; a call
      that panics or blocks for ever has an outcome of its own.
    - [Goroutine]: package [goroutine], the per-worker wrapper
      ([workerWrapper]: Loop, Open, Close, Join, Interrupt).  The wrapper
      runs with other goroutines, so its methods are cut into statements
      and put together as a transition system; what happens is recorded in
      a trace, and the properties are properties of all traces. *)

From Stdlib Require Import String List ZArith Bool Lia.
Import ListNotations.
Local Open Scope Z_scope.

(** Outcome of running a piece of Go code to its end. *)
Inductive outcome (A : Type) : Type :=
| Ret (a : A)      (* the call returns *)
| Panic            (* run-time panic: nil dereference, nil func call *)
| Block.           (* blocks for ever: send on a full or nil channel *)
Arguments Ret {A} a.
Arguments Panic {A}.
Arguments Block {A}.

Definition obind {A B} (m : outcome A) (k : A -> outcome B) : outcome B :=
  match m with
  | Ret a => k a
  | Panic => Panic
  | Block => Block
  end.

Notation "'do' x <- m ; k" := (obind m (fun x => k))
  (at level 10, x name, m at level 100, k at level 200).
Notation "'do' ' p <- m ; k" :=
  (obind m (fun x => match x with p => k end))
  (at level 10, p pattern, m at level 100, k at level 200).

(* ================================================================== *)
(** * Package tcpPool *)
(* ================================================================== *)

Module TcpPool.

(** Go [error] values that the package makes or passes on. *)
Inductive error : Type :=
| ErrClosed                               (* var ErrClosed = errors.New("pool is closed") *)
| errorString (msg : string)              (* errors.New(msg) *)
| Errorf (format : string) (arg : error). (* fmt.Errorf(format, arg) *)

(** A [net.Conn] interface value: [None] is the nil interface, [Some h] a
    live connection named by its handle. *)
Definition handle := nat.
Definition netConn := option handle.

Section Pool.

(** Everything outside the pool (sockets, the dialer's state). *)
Variable World : Type.

(** [conn.Close()] on a raw, non-nil connection. *)
Variable connClose : handle -> World -> option error * World.

(** [type Factory func() (net.Conn, error)]; both results may be nil. *)
Definition Factory : Type := World -> (netConn * option error) * World.

(** A buffered [chan net.Conn]: the queued values, oldest first, and the
    capacity given to [make]. *)
Record chan : Type := mkChan { buf : list netConn; cap : Z }.

(** [type channelPool struct]; a nil channel or func is [None].  The mutex
    is not a field of the model: calls run one after the other. *)
Record channelPool : Type := mkPool {
  conns : option chan;
  factory : option Factory
}.

(** [type PoolConn struct]; the back pointer [c] is the one pool of the
    model. *)
Record PoolConn : Type := mkPoolConn { Conn : netConn; unusable : bool }.

Definition len (ch : chan) : Z := Z.of_nat (length (buf ch)).

Definition set_buf (c : channelPool) (ch : chan) (b : list netConn) : channelPool :=
  {| conns := Some {| buf := b; cap := cap ch |}; factory := factory c |}.

(** [conn.Close()] on an interface value: a nil interface panics. *)
Definition rawClose (conn : netConn) (w : World) : outcome (option error * World) :=
  match conn with
  | None => Panic
  | Some h => Ret (connClose h w)
  end.

Definition getConns (c : channelPool) : option chan := conns c.

Definition wrapConn (conn : netConn) : PoolConn :=
  {| Conn := conn; unusable := false |}.

(** [func (c *channelPool) Get() (net.Conn, error)].  The returned
    [net.Conn] is nil ([None]) or a [*PoolConn]. *)
Definition Get (c : channelPool) (w : World)
  : outcome ((option PoolConn * option error) * channelPool * World) :=
  match getConns c with
  | None => Ret ((None, Some ErrClosed), c, w)
  | Some ch =>
      match buf ch with
      | conn :: rest =>                       (* case conn := <-conns *)
          let c' := set_buf c ch rest in
          match conn with
          | None => Ret ((None, Some ErrClosed), c', w)
          | Some _ => Ret ((Some (wrapConn conn), None), c', w)
          end
      | [] =>                                 (* default *)
          match factory c with
          | None => Panic
          | Some f =>
              let '((conn, err), w') := f w in
              match err with
              | Some e => Ret ((None, Some e), c, w')
              | None => Ret ((Some (wrapConn conn), None), c, w')
              end
          end
      end
  end.

(** [func (c *channelPool) put(conn net.Conn) error]. *)
Definition put (conn : netConn) (c : channelPool) (w : World)
  : outcome (option error * channelPool * World) :=
  match conn with
  | None => Ret (Some (errorString "connection is nil. rejecting"), c, w)
  | Some h =>
      match conns c with
      | None => let '(e, w') := connClose h w in Ret (e, c, w')
      | Some ch =>
          if len ch <? cap ch                 (* case c.conns <- conn *)
          then Ret (None, set_buf c ch (buf ch ++ [conn]), w)
          else let '(e, w') := connClose h w in Ret (e, c, w')  (* default *)
      end
  end.

(** [for conn := range conns { conn.Close() }] on the closed channel. *)
Fixpoint drain (l : list netConn) (w : World) : outcome World :=
  match l with
  | [] => Ret w
  | conn :: l' => do '(_, w') <- rawClose conn w; drain l' w'
  end.

(** [func (c *channelPool) Close()]. *)
Definition Close (c : channelPool) (w : World) : outcome (channelPool * World) :=
  let c' := {| conns := None; factory := None |} in
  match conns c with
  | None => Ret (c', w)
  | Some ch => do w' <- drain (buf ch) w; Ret (c', w')
  end.

(** [func (c *channelPool) Len() int]; [len] of a nil channel is 0. *)
Definition Len (c : channelPool) : Z :=
  match getConns c with
  | None => 0
  | Some ch => len ch
  end.

(** The loop [for i := 0; i < initialCap; i++] of [NewChannelPool], with
    [n] iterations left. *)
Fixpoint fill (n : nat) (fac : option Factory) (c : channelPool) (w : World)
  : outcome (option error * channelPool * World) :=
  match n with
  | O => Ret (None, c, w)
  | S n' =>
      match fac with
      | None => Panic
      | Some f =>
          let '((conn, err), w1) := f w in
          match err with
          | Some e =>
              do '(c', w2) <- Close c w1;
              Ret (Some (Errorf "factory is not able to fill the pool: %s" e), c', w2)
          | None =>
              match conns c with              (* c.conns <- conn *)
              | None => Block
              | Some ch =>
                  if len ch <? cap ch
                  then fill n' fac (set_buf c ch (buf ch ++ [conn])) w1
                  else Block
              end
          end
      end
  end.

(** [func NewChannelPool(initialCap, maxCap int, factory Factory) (Pool, error)]. *)
Definition NewChannelPool (initialCap maxCap : Z) (fac : option Factory) (w : World)
  : outcome (option channelPool * option error * World) :=
  if (initialCap <? 0) || (maxCap <=? 0) || (initialCap >? maxCap)
  then Ret (None, Some (errorString "invalid capacity settings"), w)
  else
    let c := {| conns := Some {| buf := []; cap := maxCap |}; factory := fac |} in
    do '(err, c', w') <- fill (Z.to_nat initialCap) fac c w;
    match err with
    | Some e => Ret (None, Some e, w')
    | None => Ret (Some c', None, w')
    end.

(** [func (p *PoolConn) Close() error]. *)
Definition PoolConn_Close (p : PoolConn) (c : channelPool) (w : World)
  : outcome (option error * channelPool * World) :=
  if unusable p then
    match Conn p with
    | Some h => let '(e, w') := connClose h w in Ret (e, c, w')
    | None => Ret (None, c, w)
    end
  else put (Conn p) c w.

(** [func (p *PoolConn) MarkUnusable()]. *)
Definition MarkUnusable (p : PoolConn) : PoolConn :=
  {| Conn := Conn p; unusable := true |}.

(** ** Clients: any sequence of calls on one pool *)

Inductive call : Type :=
| CallGet
| CallLen
| CallClose
| CallConnClose (p : PoolConn).

Definition do_call (k : call) (c : channelPool) (w : World)
  : outcome (channelPool * World) :=
  match k with
  | CallGet => do '(_, c', w') <- Get c w; Ret (c', w')
  | CallLen => Ret (c, w)
  | CallClose => Close c w
  | CallConnClose p => do '(_, c', w') <- PoolConn_Close p c w; Ret (c', w')
  end.

Fixpoint do_calls (ks : list call) (c : channelPool) (w : World)
  : outcome (channelPool * World) :=
  match ks with
  | [] => Ret (c, w)
  | k :: ks' => do '(c', w') <- do_call k c w; do_calls ks' c' w'
  end.

(** A pool whose channel is nil: what [Close] leaves behind. *)
Definition is_closed (c : channelPool) : Prop :=
  conns c = None /\ factory c = None.

(** The buffer respects the capacity [m] that [make] was given. *)
Definition bounded (m : Z) (c : channelPool) : Prop :=
  match conns c with
  | None => True
  | Some ch => cap ch = m /\ len ch <= m
  end.

(** ** For stating more about the pool *)

(** The factory called up to [n] times, stopping at its first error: the
    connections made, the error if any, and the world after. *)
Fixpoint dial_upto (n : nat) (f : Factory) (w : World)
  : list netConn * option error * World :=
  match n with
  | O => ([], None, w)
  | S n' =>
      let '((conn, err), w1) := f w in
      match err with
      | Some e => ([], Some e, w1)
      | None =>
          let '(l, e, w2) := dial_upto n' f w1 in (conn :: l, e, w2)
      end
  end.

(** The world after [Close()] on each of the raw connections in turn. *)
Definition close_all (hs : list handle) (w : World) : World :=
  fold_left (fun w0 h => snd (connClose h w0)) hs w.

(** [n] calls of [Get] in a row: what each returned, oldest first. *)
Fixpoint take (n : nat) (c : channelPool) (w : World)
  : outcome (list (option PoolConn * option error) * channelPool * World) :=
  match n with
  | O => Ret ([], c, w)
  | S n' =>
      do '(r, c1, w1) <- Get c w;
      do '(rs, c2, w2) <- take n' c1 w1;
      Ret (r :: rs, c2, w2)
  end.

(** The connections [hs] given back one after the other, each through the
    [Close] of its wrapper. *)
Definition give_back (hs : list handle) : list call :=
  map (fun h => CallConnClose (wrapConn (Some h))) hs.

End Pool.

Arguments mkPool {World} conns factory.
Arguments conns {World} c.
Arguments factory {World} c.
Arguments set_buf {World} c ch b.
Arguments getConns {World} c.
Arguments Get {World} c w.
Arguments Len {World} c.
Arguments is_closed {World} c.
Arguments bounded {World} m c.

(** ** A small world to run the pool in

    Handles are dialled in order 0, 1, 2, ...; closing a raw connection
    records its handle. *)
Record netWorld : Type := mkWorld { dialled : nat; closedLog : list handle }.

Definition netClose (h : handle) (w : netWorld) : option error * netWorld :=
  (None, {| dialled := dialled w; closedLog := closedLog w ++ [h] |}).

Definition dial : Factory netWorld := fun w =>
  ((Some (dialled w), None),
   {| dialled := S (dialled w); closedLog := closedLog w |}).

Definition refused : error := errorString "connection refused".

Definition dial_fails : Factory netWorld := fun w => ((None, Some refused), w).

Definition world0 : netWorld := {| dialled := 0; closedLog := [] |}.

(** [NewChannelPool(2, 2, dial)] succeeded: both slots are taken. *)
Definition full2 : channelPool netWorld :=
  mkPool (Some (mkChan [Some 0%nat; Some 1%nat] 2)) (Some dial).

Definition world2 : netWorld := {| dialled := 2; closedLog := [] |}.

(** A factory that reports success without a connection. *)
Definition dial_nil : Factory netWorld := fun w => ((None, None), w).

(** The second call of the factory fails. *)
Definition dial_once : Factory netWorld := fun w =>
  match dialled w with
  | O => dial w
  | _ => dial_fails w
  end.

End TcpPool.

(* ================================================================== *)
(** * Package goroutine: the worker wrapper *)
(* ================================================================== *)

Module Goroutine.

(** An [interface{}] payload: a job's input or its result. *)
Definition Any := Z.

(** An unbuffered channel.  It holds no value: a send and a receive
    complete together, in one joint step of the two goroutines. *)
Inductive chan : Type := ChNil | ChOpen | ChClosed.

(** Modelled from the spec: the interfaces [GoroutineWorker],
    [GoroutineExtendedWorker] and [GoroutineInterruptable], whose
    declarations are not part of the sources at hand.  A worker has [Job]
    and [Ready]; it may also have [Initialize] and [Terminate] (the
    extended capability) and [Interrupt] (the interruptable capability).
    The record holds what the wrapper can find out about its worker: whether
    the assertions [worker.(GoroutineExtendedWorker)] and
    [worker.(GoroutineInterruptable)] succeed.  What the worker's methods
    do is left open: their results are inputs of the transition system. *)
Record GoroutineWorker : Type := mkWorker {
  extended : bool;
  interruptable : bool
}.

(** What can be observed of a run, in the order it happened. *)
Inductive event : Type :=
| EvInitialize                 (* extWorker.Initialize() *)
| EvTerminate                  (* extWorker.Terminate() *)
| EvInterrupt                  (* extWorker.Interrupt() *)
| EvMake                       (* the three make(chan ...) of Open *)
| EvStore (v : Z)              (* atomic.SwapUint32(&poolOpen, v) *)
| EvGo                         (* go wrapper.Loop() *)
| EvReady (b : bool)           (* worker.Ready() returned b *)
| EvLoad (v : Z)               (* atomic.LoadUint32(&poolOpen) gave v *)
| EvSleep (ns : Z)             (* time.Sleep(ns) *)
| EvSendReady                  (* readyChan <- 1 was received *)
| EvRecvJob (d : Any)          (* range jobChan yielded d *)
| EvJob (d : Any)              (* worker.Job(d) is invoked *)
| EvJobRet (d r : Any)         (* worker.Job(d) returned r *)
| EvSendOutput (r : Any)       (* outputChan <- r was received *)
| EvCloseReady                 (* close(readyChan) *)
| EvCloseOutput                (* close(outputChan) *)
| EvCloseJob                   (* close(jobChan) *)
| EvJoinSaw (readyOpen outputOpen : bool). (* one round of Join's loop *)

(** The two places where Loop polls [Ready]: before the first ready
    signal (lines 20-26) and after a job (lines 32-37). *)
Inductive phase : Type := WarmUp | AfterJob.

(** Control point of the goroutine that runs [Loop]. *)
Inductive loop_pc : Type :=
| LNotStarted
| LReady (ph : phase)          (* 20 / 32: for !wrapper.worker.Ready() *)
| LCheck (ph : phase)          (* 22 / 33: if atomic.LoadUint32(...) == 0 *)
| LSleep (ph : phase)          (* 25 / 36: time.Sleep(tout * time.Millisecond) *)
| LSignal (ph : phase)         (* 28 / 38: wrapper.readyChan <- 1 *)
| LRange                       (* 30: for data := range wrapper.jobChan *)
| LCall (d : Any)              (* 31: about to call wrapper.worker.Job(data) *)
| LJob (d : Any)               (* 31: inside wrapper.worker.Job(data) *)
| LOutput (r : Any)            (* 31: wrapper.outputChan <- result *)
| LCloseReady                  (* 41: close(wrapper.readyChan) *)
| LCloseOutput                 (* 42: close(wrapper.outputChan) *)
| LReturned.

(** Control point of the call to [Close]. *)
Inductive close_pc : Type :=
| C62                          (* 62: close(wrapper.jobChan) *)
| C65                          (* 65: atomic.SwapUint32(&wrapper.poolOpen, 0) *)
| CReturned.

(** Control point of the call to [Join]. *)
Inductive join_pc : Type :=
| J71                          (* 71: _, readyOpen := <-wrapper.readyChan *)
| J72 (readyOpen : bool)       (* 72-73: _, outputOpen := <-...; if ... break *)
| J78                          (* 78: the Terminate call *)
| JReturned.

(** [type workerWrapper struct]. *)
Record workerWrapper : Type := mkWrapper {
  readyChan : chan;
  jobChan : chan;
  outputChan : chan;
  poolOpen : Z;                  (* uint32, only ever 0 or 1 *)
  worker : GoroutineWorker
}.

(** A wrapper, the goroutines that run its methods, and the history of
    the run. *)
Record system : Type := System {
  wrapper : workerWrapper;
  loop_at : loop_pc;
  close_at : close_pc;
  join_at : join_pc;
  trace : list event
}.

(** A wrapper as [CreateCustomPool] leaves it: only [worker] is set. *)
Definition init (w : GoroutineWorker) : system :=
  System (mkWrapper ChNil ChNil ChNil 0 w) LNotStarted C62 J71 [].

Definition emit (e : event) (s : system) : system :=
  System (wrapper s) (loop_at s) (close_at s) (join_at s) (trace s ++ [e]).

Definition set_loop (pc : loop_pc) (s : system) : system :=
  System (wrapper s) pc (close_at s) (join_at s) (trace s).

Definition set_close (pc : close_pc) (s : system) : system :=
  System (wrapper s) (loop_at s) pc (join_at s) (trace s).

Definition set_join (pc : join_pc) (s : system) : system :=
  System (wrapper s) (loop_at s) (close_at s) pc (trace s).

Definition set_wrapper (wr : workerWrapper) (s : system) : system :=
  System wr (loop_at s) (close_at s) (join_at s) (trace s).

Definition set_readyChan (c : chan) (s : system) : system :=
  let wr := wrapper s in
  set_wrapper (mkWrapper c (jobChan wr) (outputChan wr) (poolOpen wr) (worker wr)) s.

Definition set_jobChan (c : chan) (s : system) : system :=
  let wr := wrapper s in
  set_wrapper (mkWrapper (readyChan wr) c (outputChan wr) (poolOpen wr) (worker wr)) s.

Definition set_outputChan (c : chan) (s : system) : system :=
  let wr := wrapper s in
  set_wrapper (mkWrapper (readyChan wr) (jobChan wr) c (poolOpen wr) (worker wr)) s.

Definition set_poolOpen (v : Z) (s : system) : system :=
  let wr := wrapper s in
  set_wrapper (mkWrapper (readyChan wr) (jobChan wr) (outputChan wr) v (worker wr)) s.

(** [tout * time.Millisecond] with [tout := time.Duration(5)], in ns. *)
Definition tout : Z := 5.
Definition Millisecond : Z := 1000000.

(** What drives one step of [Loop]. *)
Inductive loop_input : Type :=
| Silent                       (* a statement that needs nobody else *)
| ReadyReturns (b : bool)      (* worker.Ready() returns b *)
| JobReturns (r : Any)         (* worker.Job(data) returns r *)
| Received                     (* the pending send finds its receiver *)
| Sent (d : Any).              (* a sender hands d over on jobChan *)

(** [func (wrapper *workerWrapper) Loop()], one statement at a time.
    [None]: the goroutine is not at such a statement, or is blocked. *)
Definition Loop (i : loop_input) (s : system) : option system :=
  match loop_at s, i with
  | LReady ph, ReadyReturns b =>
      Some (set_loop (if b then LSignal ph else LCheck ph) (emit (EvReady b) s))
  | LCheck ph, Silent =>
      Some (set_loop (if poolOpen (wrapper s) =? 0 then LSignal ph else LSleep ph)
                     (emit (EvLoad (poolOpen (wrapper s))) s))
  | LSleep ph, Silent =>
      Some (set_loop (LReady ph) (emit (EvSleep (tout * Millisecond)) s))
  | LSignal _, Received =>
      match readyChan (wrapper s) with
      | ChOpen => Some (set_loop LRange (emit EvSendReady s))
      | _ => None
      end
  | LRange, Sent d =>
      match jobChan (wrapper s) with
      | ChOpen => Some (set_loop (LCall d) (emit (EvRecvJob d) s))
      | _ => None
      end
  | LRange, Silent =>
      match jobChan (wrapper s) with
      | ChClosed => Some (set_loop LCloseReady s)
      | _ => None
      end
  | LCall d, Silent => Some (set_loop (LJob d) (emit (EvJob d) s))
  | LJob d, JobReturns r => Some (set_loop (LOutput r) (emit (EvJobRet d r) s))
  | LOutput r, Received =>
      match outputChan (wrapper s) with
      | ChOpen => Some (set_loop (LReady AfterJob) (emit (EvSendOutput r) s))
      | _ => None
      end
  | LCloseReady, Silent =>
      Some (set_loop LCloseOutput (set_readyChan ChClosed (emit EvCloseReady s)))
  | LCloseOutput, Silent =>
      Some (set_loop LReturned (set_outputChan ChClosed (emit EvCloseOutput s)))
  | _, _ => None
  end.

(** [v, ok := <-wrapper.readyChan] done by another goroutine: the [ok]
    flag and the state after it.  On an open channel it needs Loop to be
    at its send; on a nil channel it blocks for ever. *)
Definition recv_ready (s : system) : option (bool * system) :=
  match readyChan (wrapper s) with
  | ChNil => None
  | ChClosed => Some (false, s)
  | ChOpen =>
      match loop_at s with
      | LSignal _ => option_map (pair true) (Loop Received s)
      | _ => None
      end
  end.

(** [v, ok := <-wrapper.outputChan] done by another goroutine. *)
Definition recv_output (s : system) : option (bool * system) :=
  match outputChan (wrapper s) with
  | ChNil => None
  | ChClosed => Some (false, s)
  | ChOpen =>
      match loop_at s with
      | LOutput _ => option_map (pair true) (Loop Received s)
      | _ => None
      end
  end.

(** [wrapper.jobChan <- d] done by another goroutine; a send on a closed
    channel panics. *)
Definition send_job (d : Any) (s : system) : option system :=
  match jobChan (wrapper s) with
  | ChOpen => Loop (Sent d) s
  | _ => None
  end.

(** [func (wrapper *workerWrapper) Open()].  Nothing else runs on the
    wrapper before [go wrapper.Loop()], so the body is one step.  The
    model follows the wrapper through one call of [Open], as the pool
    does between its own Open and Close. *)
Definition Open (s : system) : option system :=
  match loop_at s with
  | LNotStarted =>
      let s1 := if extended (worker (wrapper s)) then emit EvInitialize s else s in
      let s2 := emit EvMake
                  (set_outputChan ChOpen (set_jobChan ChOpen (set_readyChan ChOpen s1))) in
      let s3 := emit (EvStore 1) (set_poolOpen 1 s2) in
      Some (set_loop (LReady WarmUp) (emit EvGo s3))
  | _ => None
  end.

(** [func (wrapper *workerWrapper) Close()], one statement at a time.
    Closing a nil or an already closed channel panics. *)
Definition Close (s : system) : option system :=
  match close_at s with
  | C62 | CReturned =>          (* a first call, or one more call *)
      match jobChan (wrapper s) with
      | ChOpen => Some (set_close C65 (set_jobChan ChClosed (emit EvCloseJob s)))
      | _ => None
      end
  | C65 => Some (set_close CReturned (set_poolOpen 0 (emit (EvStore 0) s)))
  end.

(** [func (wrapper *workerWrapper) Join()], one statement at a time; the
    model follows one call. *)
Definition Join (s : system) : option system :=
  match join_at s with
  | J71 =>
      match recv_ready s with
      | Some (readyOpen, s') => Some (set_join (J72 readyOpen) s')
      | None => None
      end
  | J72 readyOpen =>
      match recv_output s with
      | Some (outputOpen, s') =>
          Some (set_join (if negb readyOpen && negb outputOpen then J78 else J71)
                         (emit (EvJoinSaw readyOpen outputOpen) s'))
      | None => None
      end
  | J78 =>
      Some (set_join JReturned
              (if extended (worker (wrapper s)) then emit EvTerminate s else s))
  | JReturned => None
  end.

(** [func (wrapper *workerWrapper) Interrupt()]. *)
Definition Interrupt (s : system) : system :=
  if interruptable (worker (wrapper s)) then emit EvInterrupt s else s.

(** ** The wrapper and its clients as a transition system *)

Inductive action : Type :=
| CallOpen                     (* wrapper.Open() *)
| CallClose                    (* next statement of wrapper.Close() *)
| CallJoin                     (* next statement of wrapper.Join() *)
| CallInterrupt                (* wrapper.Interrupt() *)
| LoopStep                     (* next statement of Loop *)
| LoopReady (b : bool)         (* Loop's call to Ready returns b *)
| LoopJob (r : Any)            (* Loop's call to Job returns r *)
| PoolRecvReady                (* the pool receives from readyChan *)
| PoolSendJob (d : Any)        (* the pool sends d on jobChan *)
| PoolRecvOutput.              (* the pool receives from outputChan *)

Definition step (a : action) (s : system) : option system :=
  match a with
  | CallOpen => Open s
  | CallClose => Close s
  | CallJoin => Join s
  | CallInterrupt => Some (Interrupt s)
  | LoopStep => Loop Silent s
  | LoopReady b => Loop (ReadyReturns b) s
  | LoopJob r => Loop (JobReturns r) s
  | PoolRecvReady => option_map snd (recv_ready s)
  | PoolSendJob d => send_job d s
  | PoolRecvOutput => option_map snd (recv_output s)
  end.

Fixpoint run (acts : list action) (s : system) : option system :=
  match acts with
  | [] => Some s
  | a :: acts' =>
      match step a s with
      | Some s' => run acts' s'
      | None => None
      end
  end.

(** ** Reading a trace *)

(** [P h e] holds for every event [e] of the trace, [h] being the history
    before it. *)
Definition each_prefix (P : list event -> event -> Prop) (l : list event) : Prop :=
  forall h e l2, l = h ++ e :: l2 -> P h e.

Fixpoint count (f : event -> bool) (l : list event) : nat :=
  match l with
  | [] => O
  | e :: l' => if f e then S (count f l') else count f l'
  end.

(** The most recent event of the trace that [f] selects. *)
Definition last_such (f : event -> bool) (l : list event) : option event :=
  fold_left (fun acc e => if f e then Some e else acc) l None.

Definition event_eq_dec (x y : event) : {x = y} + {x <> y}.
Proof. decide equality; try apply Z.eq_dec; apply bool_dec. Defined.

Definition same (e x : event) : bool := if event_eq_dec e x then true else false.

Definition is_RecvJob e := match e with EvRecvJob _ => true | _ => false end.
Definition is_SendOutput e := match e with EvSendOutput _ => true | _ => false end.
Definition is_Ready e := match e with EvReady _ => true | _ => false end.

(** The job cycle of Loop: receive, call, return, send. *)
Definition is_job_event e :=
  match e with
  | EvRecvJob _ | EvJob _ | EvJobRet _ _ | EvSendOutput _ => true
  | _ => false
  end.

(** Calls of the worker's [Ready] and [Job]. *)
Definition is_worker_call e :=
  match e with
  | EvReady _ | EvJob _ => true
  | _ => false
  end.

(** Events of the goroutine that runs Loop. *)
Definition is_loop_event e :=
  match e with
  | EvReady _ | EvLoad _ | EvSleep _ | EvSendReady | EvRecvJob _ | EvJob _
  | EvJobRet _ _ | EvSendOutput _ | EvCloseReady | EvCloseOutput => true
  | _ => false
  end.

Definition received : list event -> nat := count is_RecvJob.
Definition sent : list event -> nat := count is_SendOutput.

(** C1 on a trace: a job is received only when every result so far has
    been sent, and each step of the job cycle follows the one before. *)
Definition one_job_at_a_time : list event -> Prop :=
  each_prefix (fun h e =>
    match e with
    | EvRecvJob _ => received h = sent h
    | EvJob d => last_such is_job_event h = Some (EvRecvJob d)
    | EvJobRet d _ => last_such is_job_event h = Some (EvJob d)
    | EvSendOutput r =>
        received h = S (sent h)
        /\ exists d, last_such is_job_event h = Some (EvJobRet d r)
    | _ => True
    end).

(** C2 on a trace: when [Job] is invoked, the most recent [Ready] call
    returned true, and no [Job] call came after it. *)
Definition ready_before_job : list event -> Prop :=
  each_prefix (fun h e =>
    match e with
    | EvJob _ =>
        last_such is_Ready h = Some (EvReady true)
        /\ last_such is_worker_call h = Some (EvReady true)
    | _ => True
    end).

(** C3 as the spec has it: no send on the ready channel once the open
    flag was cleared. *)
Definition no_signal_once_closed : list event -> Prop :=
  each_prefix (fun h e =>
    match e with
    | EvSendReady => ~ In (EvStore 0) h
    | _ => True
    end).

(** C3 as the code has it: when Loop has just read 0 from the open flag,
    the next thing it does is the send on the ready channel; and it closes
    its channels only after the job channel was closed. *)
Definition signals_after_seeing_closed : list event -> Prop :=
  each_prefix (fun h e =>
    (is_loop_event e = true ->
     last_such is_loop_event h = Some (EvLoad 0) -> e = EvSendReady)
    /\ (e = EvCloseReady -> In EvCloseJob h)).

(** C4 on a trace. *)
Definition lifecycle_order : list event -> Prop :=
  each_prefix (fun h e =>
    match e with
    | EvInitialize => ~ In EvInitialize h /\ ~ In EvGo h
    | EvGo => In EvInitialize h
    | EvReady _ => In EvInitialize h /\ In EvGo h
    | EvTerminate =>
        ~ In EvTerminate h
        /\ In EvCloseJob h /\ In EvCloseReady h /\ In EvCloseOutput h
        /\ In (EvJoinSaw false false) h
    | _ => True
    end).

(** C5 on a trace: what a round of Join reports is what the channels
    are. *)
Definition join_reports_truthfully : list event -> Prop :=
  each_prefix (fun h e =>
    match e with
    | EvJoinSaw readyOpen outputOpen =>
        (readyOpen = false -> In EvCloseReady h)
        /\ (outputOpen = false -> In EvCloseOutput h)
    | EvCloseOutput => In EvCloseReady h
    | _ => True
    end).

Definition action_eq_dec (x y : action) : {x = y} + {x <> y}.
Proof. decide equality; try apply Z.eq_dec; apply bool_dec. Defined.

(** ** What a reachable state looks like *)

Definition started (pc : loop_pc) : bool :=
  match pc with LNotStarted => false | _ => true end.

Definition ready_of (pc : loop_pc) : chan :=
  match pc with
  | LNotStarted => ChNil
  | LCloseOutput | LReturned => ChClosed
  | _ => ChOpen
  end.

Definition output_of (pc : loop_pc) : chan :=
  match pc with
  | LNotStarted => ChNil
  | LReturned => ChClosed
  | _ => ChOpen
  end.

Definition job_of (pc : loop_pc) (cl : close_pc) : chan :=
  match pc, cl with
  | LNotStarted, _ => ChNil
  | _, C62 => ChOpen
  | _, _ => ChClosed
  end.

Definition flag_of (pc : loop_pc) (cl : close_pc) : Z :=
  match pc, cl with
  | LNotStarted, _ => 0
  | _, CReturned => 0
  | _, _ => 1
  end.

Definition leaving (pc : loop_pc) : bool :=
  match pc with
  | LCloseReady | LCloseOutput | LReturned => true
  | _ => false
  end.

Definition join_broke (pc : join_pc) : bool :=
  match pc with J78 | JReturned => true | _ => false end.

(** The channels and the flag are determined by where the goroutines
    are. *)
Record wf (s : system) : Prop := {
  wf_ready : readyChan (wrapper s) = ready_of (loop_at s);
  wf_output : outputChan (wrapper s) = output_of (loop_at s);
  wf_job : jobChan (wrapper s) = job_of (loop_at s) (close_at s);
  wf_flag : poolOpen (wrapper s) = flag_of (loop_at s) (close_at s);
  wf_fresh : loop_at s = LNotStarted -> close_at s = C62 /\ join_at s = J71;
  wf_leaving : leaving (loop_at s) = true -> close_at s <> C62;
  wf_j72 : join_at s = J72 false -> ready_of (loop_at s) = ChClosed;
  wf_broke : join_broke (join_at s) = true -> loop_at s = LReturned
}.

(** Where Loop is in the job cycle, read off the trace. *)
Definition cycle_inv (s : system) : Prop :=
  let tr := trace s in
  match loop_at s with
  | LCall d =>
      received tr = S (sent tr) /\ last_such is_job_event tr = Some (EvRecvJob d)
  | LJob d =>
      received tr = S (sent tr) /\ last_such is_job_event tr = Some (EvJob d)
  | LOutput r =>
      received tr = S (sent tr)
      /\ exists d, last_such is_job_event tr = Some (EvJobRet d r)
  | _ => received tr = sent tr
  end.

(** Loop is about to take a job only after a fresh [Ready() == true],
    unless the job channel is closed for good. *)
Definition handshake_inv (s : system) : Prop :=
  let fresh :=
    last_such is_Ready (trace s) = Some (EvReady true)
    /\ last_such is_worker_call (trace s) = Some (EvReady true) in
  match loop_at s with
  | LSignal _ | LRange => fresh \/ close_at s = CReturned
  | LCall _ => fresh
  | _ => True
  end.

(** Having just read 0 from the flag, Loop stands at a ready send. *)
Definition seen_closed_inv (s : system) : Prop :=
  last_such is_loop_event (trace s) = Some (EvLoad 0) ->
  exists ph, loop_at s = LSignal ph.

Definition b2n (b : bool) : nat := if b then 1%nat else 0%nat.

(** How often the one-off events have happened. *)
Record once_inv (s : system) : Prop := {
  once_init : count (same EvInitialize) (trace s)
              = b2n (extended (worker (wrapper s)) && started (loop_at s));
  once_go : count (same EvGo) (trace s) = b2n (started (loop_at s));
  once_term : count (same EvTerminate) (trace s)
              = b2n (extended (worker (wrapper s))
                     && match join_at s with JReturned => true | _ => false end);
  once_job : count (same EvCloseJob) (trace s)
             = b2n (match close_at s with C62 => false | _ => true end);
  once_ready : count (same EvCloseReady) (trace s)
               = b2n (match loop_at s with
                      | LCloseOutput | LReturned => true | _ => false end);
  once_output : count (same EvCloseOutput) (trace s)
                = b2n (match loop_at s with LReturned => true | _ => false end);
  once_saw : count (same (EvJoinSaw false false)) (trace s)
             = b2n (join_broke (join_at s))
}.

(** ** Sample runs *)

Definition plain : GoroutineWorker := mkWorker false false.
Definition full : GoroutineWorker := mkWorker true true.

(** A worker that is never ready; the pool is closed while Loop polls. *)
Definition closed_while_warming : list action :=
  [CallOpen; LoopReady false; CallClose; CallClose; LoopStep; CallJoin].

(** The pool is closed while a job runs; the worker is not ready
    afterwards. *)
Definition closed_during_job : list action :=
  [CallOpen; LoopReady true; PoolRecvReady; PoolSendJob 10; LoopStep;
   CallClose; CallClose; LoopJob 20; PoolRecvOutput; LoopReady false;
   LoopStep; CallJoin].

(** One job from Open to the end of Join. *)
Definition one_job : list action :=
  [CallOpen; LoopReady false; LoopStep; LoopStep; LoopReady true;
   PoolRecvReady; PoolSendJob 10; LoopStep; LoopJob 20; PoolRecvOutput;
   LoopReady true; CallInterrupt; CallClose; CallClose; CallJoin; LoopStep;
   LoopStep; LoopStep; CallJoin; CallJoin; CallJoin; CallJoin].

(** Close, then Loop runs to its end (the pool takes its ready signal)
    before Join is called. *)
Definition loop_exits_first : list action :=
  [CallOpen; LoopReady true; CallClose; CallClose; PoolRecvReady; LoopStep;
   LoopStep; LoopStep].

(** ** More ways to read a trace *)

Definition is_SendReady e := match e with EvSendReady => true | _ => false end.
Definition is_Sleep e := match e with EvSleep _ => true | _ => false end.

Definition signalled : list event -> nat := count is_SendReady.

(** Ready signals and job receipts take turns, a signal first. *)
Definition one_signal_per_job : list event -> Prop :=
  each_prefix (fun h e =>
    match e with
    | EvSendReady => signalled h = received h
    | EvRecvJob _ => signalled h = S (received h)
    | _ => True
    end).

Definition signal_inv (s : system) : Prop :=
  signalled (trace s)
  = (received (trace s)
     + b2n (match loop_at s with
            | LRange | LCloseReady | LCloseOutput | LReturned => true
            | _ => false
            end))%nat.

(** The values that [f] picks from the trace, in order. *)
Fixpoint collect {A : Type} (f : event -> option A) (l : list event) : list A :=
  match l with
  | [] => []
  | e :: l' =>
      match f e with
      | Some a => a :: collect f l'
      | None => collect f l'
      end
  end.

(** Inputs taken from the job channel. *)
Definition inputs : list event -> list Any :=
  collect (fun e => match e with EvRecvJob d => Some d | _ => None end).

(** Inputs [Job] was called with. *)
Definition calls : list event -> list Any :=
  collect (fun e => match e with EvJob d => Some d | _ => None end).

(** Input and result of the calls of [Job] that have returned. *)
Definition results : list event -> list (Any * Any) :=
  collect (fun e => match e with EvJobRet d r => Some (d, r) | _ => None end).

(** Values sent on the output channel. *)
Definition outputs : list event -> list Any :=
  collect (fun e => match e with EvSendOutput r => Some r | _ => None end).

(** Loop is inside the job cycle (lines 30-31, a job taken and its result
    not yet delivered). *)
Definition in_cycle (pc : loop_pc) : bool :=
  match pc with
  | LCall _ | LJob _ | LOutput _ => true
  | _ => false
  end.

Definition order_inv (s : system) : Prop :=
  let tr := trace s in
  match loop_at s with
  | LCall d =>
      inputs tr = calls tr ++ [d]
      /\ calls tr = map fst (results tr) /\ map snd (results tr) = outputs tr
  | LJob d =>
      inputs tr = calls tr
      /\ calls tr = map fst (results tr) ++ [d]
      /\ map snd (results tr) = outputs tr
  | LOutput r =>
      inputs tr = calls tr
      /\ calls tr = map fst (results tr)
      /\ map snd (results tr) = outputs tr ++ [r]
  | _ =>
      inputs tr = calls tr
      /\ calls tr = map fst (results tr) /\ map snd (results tr) = outputs tr
  end.

(** How many events that [f] selects have happened since the last event
    that [mark] selects (since the start if there is none). *)
Definition count_since (mark f : event -> bool) (l : list event) : nat :=
  fold_left (fun n e => if mark e then O else if f e then S n else n) l O.

(** Calls of [Ready] and sleeps that Loop can still make once the open
    flag reads 0. *)
Definition polls_left (pc : loop_pc) : nat :=
  match pc with
  | LReady _ | LSleep _ | LCall _ | LJob _ | LOutput _ => 1
  | _ => 0
  end.

Definition sleeps_left (pc : loop_pc) : nat :=
  match pc with
  | LSleep _ => 1
  | _ => 0
  end.

Definition closed_poll_inv (s : system) : Prop :=
  close_at s = CReturned ->
  (count_since (same (EvStore 0)) is_Ready (trace s) + polls_left (loop_at s) <= 1)%nat
  /\ (count_since (same (EvStore 0)) is_Sleep (trace s) + sleeps_left (loop_at s) <= 1)%nat.

(** Loop has not got past its first polling loop (lines 20-26). *)
Definition warming (pc : loop_pc) : bool :=
  match pc with
  | LNotStarted | LReady WarmUp | LCheck WarmUp | LSleep WarmUp => true
  | _ => false
  end.

(** Where Loop can be when it left the first polling loop without a
    successful poll. *)
Definition winding_down (pc : loop_pc) : bool :=
  match pc with
  | LSignal WarmUp | LRange | LCloseReady | LCloseOutput | LReturned => true
  | _ => false
  end.

Definition never_ready_inv (s : system) : Prop :=
  count (same (EvReady true)) (trace s) = O ->
  received (trace s) = O
  /\ ((warming (loop_at s) = true /\ signalled (trace s) = O)
      \/ (close_at s = CReturned /\ winding_down (loop_at s) = true)).

(** The worker is never ready and the pool is closed in the end. *)
Definition never_ready : list action :=
  [CallOpen; LoopReady false; LoopStep; LoopStep; LoopReady false; LoopStep;
   LoopStep; LoopReady false; CallClose].

(** ** Shutting down *)

(** A schedule that takes Loop to its end once [Close] has returned: the
    worker is never ready, a running job returns its input, and the pool
    takes what Loop has to send. *)
Definition after_poll : list action :=
  [LoopStep; PoolRecvReady; LoopStep; LoopStep; LoopStep].

Definition finish_loop (pc : loop_pc) : list action :=
  match pc with
  | LNotStarted => []
  | LReady _ => LoopReady false :: after_poll
  | LCheck _ => after_poll
  | LSleep _ => LoopStep :: LoopReady false :: after_poll
  | LSignal _ => [PoolRecvReady; LoopStep; LoopStep; LoopStep]
  | LRange => [LoopStep; LoopStep; LoopStep]
  | LCall d => LoopStep :: LoopJob d :: PoolRecvOutput :: LoopReady false :: after_poll
  | LJob d => LoopJob d :: PoolRecvOutput :: LoopReady false :: after_poll
  | LOutput _ => PoolRecvOutput :: LoopReady false :: after_poll
  | LCloseReady => [LoopStep; LoopStep]
  | LCloseOutput => [LoopStep]
  | LReturned => []
  end.

Definition finish_join (pc : join_pc) : list action :=
  repeat CallJoin
    (match pc with
     | J71 => 3
     | J72 true => 4
     | J72 false => 2
     | J78 => 1
     | JReturned => 0
     end).

Definition shutdown (s : system) : list action :=
  finish_loop (loop_at s) ++ finish_join (join_at s).

(** Nobody receives from the output channel. *)
Definition no_output_receiver (acts : list action) : bool :=
  forallb (fun a => match a with PoolRecvOutput => false | _ => true end) acts.

(** A timed-out dispatch: the job was handed over, nobody waits for its
    result, and the pool is closed and joined. *)
Definition abandoned_job : list action :=
  [CallOpen; LoopReady true; PoolRecvReady; PoolSendJob 10; LoopStep;
   LoopJob 20; CallClose; CallClose].

(** Close comes while Loop sleeps: one more sleep, one more poll. *)
Definition closed_while_asleep : list action :=
  [CallOpen; LoopReady false; LoopStep; CallClose; CallClose; LoopStep;
   LoopReady false; LoopStep; CallJoin].

(** One job with the answers of a test worker, from Open to the end of
    Join. *)
Definition echo_job : list action :=
  [CallOpen; LoopReady true; PoolRecvReady; PoolSendJob 12; LoopStep;
   LoopJob 12; PoolRecvOutput; LoopReady true; CallClose; CallClose;
   CallJoin; LoopStep; LoopStep; LoopStep; CallJoin; CallJoin; CallJoin;
   CallJoin].

(** ** The test workers of the package's test file

    [t.Errorf] is counted in [errors]. *)

(** [type dummyWorker struct]. *)
Record dummyWorker : Type := mkDummy { ready : bool; errors : nat }.

(** [func (d *dummyWorker) Job(in interface{}) interface{}]. *)
Definition dummy_Job (d : dummyWorker) (inp : Any) : dummyWorker * Any :=
  ({| ready := false;
      errors := if ready d then errors d else S (errors d) |}, inp).

(** [func (d *dummyWorker) Ready() bool]. *)
Definition dummy_Ready (d : dummyWorker) : dummyWorker * bool :=
  ({| ready := true; errors := errors d |}, true).

(** [type dummyExtWorker struct]: an embedded [dummyWorker], whose [Job]
    and [Ready] it inherits, and [initialized]. *)
Record dummyExtWorker : Type := mkDummyExt {
  dummy : dummyWorker;
  initialized : bool
}.

(** [func (d *dummyExtWorker) Initialize()]. *)
Definition dummy_Initialize (d : dummyExtWorker) : dummyExtWorker :=
  {| dummy := dummy d; initialized := true |}.

(** [func (d *dummyExtWorker) Terminate()]. *)
Definition dummy_Terminate (d : dummyExtWorker) : dummyExtWorker :=
  {| dummy := {| ready := ready (dummy d);
                 errors := if initialized d then errors (dummy d)
                           else S (errors (dummy d)) |};
     initialized := false |}.

(** The calls of a trace, made on a test worker. *)
Definition drive (d : dummyExtWorker) (e : event) : dummyExtWorker :=
  match e with
  | EvInitialize => dummy_Initialize d
  | EvTerminate => dummy_Terminate d
  | EvReady _ =>
      {| dummy := fst (dummy_Ready (dummy d)); initialized := initialized d |}
  | EvJob inp =>
      {| dummy := fst (dummy_Job (dummy d) inp); initialized := initialized d |}
  | _ => d
  end.

Definition fresh_dummy : dummyExtWorker := mkDummyExt (mkDummy false 0) false.

Definition replay (l : list event) : dummyExtWorker := fold_left drive l fresh_dummy.

(** The answers recorded in the trace are those of the test worker:
    [Ready] says true and [Job] returns its input. *)
Definition answers_as_dummy (l : list event) : Prop :=
  forall e, In e l ->
    match e with
    | EvReady b => b = true
    | EvJobRet d r => r = d
    | _ => True
    end.

Definition dummy_inv (s : system) : Prop :=
  let d := replay (trace s) in
  errors (dummy d) = O
  /\ initialized d
     = (extended (worker (wrapper s)) && started (loop_at s)
        && negb (match join_at s with JReturned => true | _ => false end))
  /\ (last_such is_worker_call (trace s) = Some (EvReady true) ->
      ready (dummy d) = true).

End Goroutine.

(* ================================================================== *)
(** * Properties of package tcpPool *)
(* ================================================================== *)

Module TcpPoolProofs.
Import TcpPool.

Section PoolFacts.

Context {World : Type}.
Variable connClose : handle -> World -> option error * World.

Local Abbreviation put := (put World connClose).
Local Abbreviation Close := (Close World connClose).
Local Abbreviation PoolConn_Close := (PoolConn_Close World connClose).
Local Abbreviation do_call := (do_call World connClose).
Local Abbreviation do_calls := (do_calls World connClose).
Local Abbreviation fill := (fill World connClose).
Local Abbreviation NewChannelPool := (NewChannelPool World connClose).

Implicit Types (c : channelPool World) (w : World) (ch : chan).

Lemma len_app_one ch (x : netConn) :
  Z.of_nat (length (buf ch ++ [x])) = len ch + 1.
Proof. unfold len. rewrite length_app. simpl. lia. Qed.

Lemma Close_is_closed c w c' w' :
  Close c w = Ret (c', w') -> is_closed c'.
Proof.
  unfold TcpPool.Close. destruct (conns c) as [ch|].
  - destruct (drain World connClose (buf ch) w); simpl; try discriminate.
    intros H; inversion H; subst. split; reflexivity.
  - intros H; inversion H; subst. split; reflexivity.
Qed.

Lemma closed_pool_eq c : is_closed c -> c = mkPool None None.
Proof. destruct c as [cs f]. intros [H1 H2]. simpl in *. subst. reflexivity. Qed.

(** On a closed pool every call returns and leaves the pool as it is. *)
Lemma do_call_closed k c w :
  is_closed c -> exists w', do_call k c w = Ret (c, w').
Proof.
  intros Hc. pose proof (closed_pool_eq c Hc) as ->.
  destruct k as [| | |p]; simpl.
  - eexists; reflexivity.
  - eexists; reflexivity.
  - eexists; reflexivity.
  - unfold TcpPool.PoolConn_Close, TcpPool.put.
    destruct (unusable p); destruct (Conn p) as [h|]; simpl;
      try (eexists; reflexivity);
      destruct (connClose h w) as [e w']; simpl; eexists; reflexivity.
Qed.

Lemma do_calls_closed ks c w :
  is_closed c -> exists w', do_calls ks c w = Ret (c, w').
Proof.
  intros Hc. revert w. induction ks as [|k ks IH]; intros w; simpl.
  - eexists; reflexivity.
  - destruct (do_call_closed k c w Hc) as [w1 ->]. simpl. apply IH.
Qed.

(** *** The capacity bound *)

Lemma bounded_Len m c : 0 <= m -> bounded m c -> 0 <= Len c <= m.
Proof.
  unfold bounded, Len, getConns. destruct (conns c) as [ch|].
  - unfold len. lia.
  - lia.
Qed.

Lemma Get_bounded m c w r c' w' :
  bounded m c -> Get c w = Ret (r, c', w') -> bounded m c'.
Proof.
  unfold Get, getConns, bounded. destruct (conns c) as [ch|] eqn:Hc.
  - destruct (buf ch) as [|conn rest] eqn:Hb.
    + destruct (factory c) as [f|]; try discriminate.
      destruct (f w) as [[conn err] w1]. intros Hm H.
      destruct err; inversion H; subst; rewrite Hc; exact Hm.
    + intros [Hcap Hlen] H.
      assert (Hrest : Z.of_nat (length rest) <= m).
      { unfold len in Hlen. rewrite Hb in Hlen. simpl length in Hlen. lia. }
      destruct conn; inversion H; subst; simpl; unfold len; simpl; auto.
  - intros _ H. inversion H; subst. rewrite Hc. exact I.
Qed.

Lemma put_bounded m conn c w e c' w' :
  bounded m c -> put conn c w = Ret (e, c', w') -> bounded m c'.
Proof.
  unfold TcpPool.put, bounded. destruct conn as [h|].
  - destruct (conns c) as [ch|] eqn:Hc.
    + destruct (len ch <? cap ch) eqn:Hlt.
      * intros [Hcap Hlen] H. inversion H; subst. simpl.
        apply Z.ltb_lt in Hlt. unfold len at 1. simpl buf.
        rewrite len_app_one. lia.
      * destruct (connClose h w) as [e0 w0]. intros Hm H.
        inversion H; subst. rewrite Hc. exact Hm.
    + destruct (connClose h w) as [e0 w0]. intros _ H.
      inversion H; subst. rewrite Hc. exact I.
  - intros Hm H. inversion H; subst. exact Hm.
Qed.

Lemma do_call_bounded m k c w c' w' :
  bounded m c -> do_call k c w = Ret (c', w') -> bounded m c'.
Proof.
  intros Hm. destruct k as [| | |p]; simpl.
  - destruct (Get c w) as [[[r c1] w1]| |] eqn:HG; simpl; try discriminate.
    intros H; inversion H; subst. eapply Get_bounded; eauto.
  - intros H; inversion H; subst. exact Hm.
  - intros H. apply Close_is_closed in H. destruct H as [H _].
    unfold bounded. rewrite H. exact I.
  - unfold TcpPool.PoolConn_Close. destruct (unusable p).
    + destruct (Conn p) as [h|].
      * destruct (connClose h w) as [e0 w0]. simpl.
        intros H; inversion H; subst. exact Hm.
      * simpl. intros H; inversion H; subst. exact Hm.
    + destruct (put (Conn p) c w) as [[[e c1] w1]| |] eqn:HP; simpl; try discriminate.
      intros H; inversion H; subst. eapply put_bounded; eauto.
Qed.

Lemma do_calls_bounded m ks c w c' w' :
  bounded m c -> do_calls ks c w = Ret (c', w') -> bounded m c'.
Proof.
  revert c w. induction ks as [|k ks IH]; intros c w Hm; simpl.
  - intros H; inversion H; subst. exact Hm.
  - destruct (do_call k c w) as [[c1 w1]| |] eqn:Hk; simpl; try discriminate.
    intros H. eapply IH; [|exact H]. eapply do_call_bounded; eauto.
Qed.

(** What the filling loop of [NewChannelPool] has done when it reports no
    error: [n] more values queued, capacity and factory untouched. *)
Lemma fill_ok n : forall fac c w c' w' ch,
  fill n fac c w = Ret (None, c', w') ->
  conns c = Some ch ->
  len ch <= cap ch ->
  exists b, conns c' = Some (mkChan (buf ch ++ b) (cap ch))
            /\ length b = n /\ factory c' = factory c
            /\ len ch + Z.of_nat n <= cap ch.
Proof.
  induction n as [|n IH]; intros fac c w c' w' ch; simpl fill.
  - intros H Hc Hle. inversion H; subst. exists []. rewrite app_nil_r.
    destruct ch as [b k]; simpl in *. repeat split; auto. lia.
  - destruct fac as [f|]; try discriminate.
    destruct (f w) as [[conn err] w1]. destruct err as [e|].
    + destruct (Close c w1) as [[c1 w2]| |]; simpl; discriminate.
    + intros H Hc Hle. rewrite Hc in H.
      destruct (len ch <? cap ch) eqn:Hlt; try discriminate.
      apply Z.ltb_lt in Hlt.
      eapply (IH _ _ _ _ _ (mkChan (buf ch ++ [conn]) (cap ch))) in H.
      * destruct H as (b & Hb & Hn & Hf & Hlen). simpl in *.
        exists (conn :: b). rewrite <- app_assoc in Hb. simpl in Hb.
        unfold len in Hlen. simpl in Hlen. rewrite len_app_one in Hlen.
        repeat split; auto; simpl; lia.
      * reflexivity.
      * unfold len. simpl. rewrite len_app_one. lia.
Qed.

(** With room for [n] more values and a factory that does not fail, the
    filling loop runs to its end. *)
Lemma fill_total n : forall f c w ch,
  (forall w0, snd (fst (f w0)) = None) ->
  conns c = Some ch ->
  len ch + Z.of_nat n <= cap ch ->
  exists c' w', fill n (Some f) c w = Ret (None, c', w').
Proof.
  induction n as [|n IH]; intros f c w ch Hf Hc Hle; simpl fill.
  - eexists; eexists; reflexivity.
  - pose proof (Hf w) as Hw. destruct (f w) as [[conn err] w1].
    simpl in Hw. subst err. rewrite Hc.
    assert (Hlt : (len ch <? cap ch) = true) by (apply Z.ltb_lt; lia).
    rewrite Hlt.
    apply (IH f _ w1 (mkChan (buf ch ++ [conn]) (cap ch))); auto.
    unfold len. simpl. rewrite len_app_one. lia.
Qed.

(** *** The claims *)

(** C7.  Returning a nil connection is rejected on the spot: [put(nil)]
    answers with an error and touches neither the pool nor the world, also
    when it is reached through [PoolConn.Close]; and a connection marked
    unusable is closed, not queued. *)
Theorem nil_rejected_unusable_closed c w (h : handle) :
  put None c w = Ret (Some (errorString "connection is nil. rejecting"), c, w)
  /\ PoolConn_Close (wrapConn None) c w
     = Ret (Some (errorString "connection is nil. rejecting"), c, w)
  /\ PoolConn_Close (MarkUnusable (wrapConn (Some h))) c w
     = Ret (fst (connClose h w), c, snd (connClose h w)).
Proof.
  repeat split; try reflexivity.
  unfold TcpPool.PoolConn_Close. simpl.
  destruct (connClose h w); reflexivity.
Qed.

(** C8.  Once [Close] has returned, whatever calls follow, [Get] answers
    [(nil, ErrClosed)], [Len] is 0, and a further [Close] returns without
    panic and changes nothing. *)
Theorem closed_pool_stays_closed c w c1 w1 (ks : list call) :
  Close c w = Ret (c1, w1) ->
  exists w2,
    do_calls ks c1 w1 = Ret (c1, w2)
    /\ Get c1 w2 = Ret ((None, Some ErrClosed), c1, w2)
    /\ Close c1 w2 = Ret (c1, w2)
    /\ Len c1 = 0.
Proof.
  intros HC. apply Close_is_closed in HC.
  destruct (do_calls_closed ks c1 w1 HC) as [w2 Hks].
  exists w2. pose proof (closed_pool_eq c1 HC) as ->.
  repeat split; auto.
Qed.

(** C9.  Bad capacity settings give the construction error.  A pool that
    [NewChannelPool] hands out had good settings, has capacity [maxCap] and
    holds [initialCap] values; after any calls [Len] is within [maxCap];
    and [put] on a full buffer closes the connection and stores nothing.
    With good settings and a factory that does not fail, the pool is
    handed out. *)
Theorem pool_never_exceeds_maxCap (initialCap maxCap : Z) (fac : option (Factory World)) w :
  ((initialCap < 0 \/ maxCap <= 0 \/ initialCap > maxCap) ->
     NewChannelPool initialCap maxCap fac w
     = Ret (None, Some (errorString "invalid capacity settings"), w))
  /\ (forall c w', NewChannelPool initialCap maxCap fac w = Ret (Some c, None, w') ->
       0 <= initialCap <= maxCap /\ 0 < maxCap
       /\ (exists b, conns c = Some (mkChan b maxCap)
                     /\ Z.of_nat (length b) = initialCap)
       /\ Len c = initialCap
       /\ forall ks c2 w2, do_calls ks c w' = Ret (c2, w2) ->
            0 <= Len c2 <= maxCap
            /\ forall ch h, conns c2 = Some ch -> len ch = cap ch ->
                 put (Some h) c2 w2 = Ret (fst (connClose h w2), c2, snd (connClose h w2)))
  /\ (forall f, 0 <= initialCap <= maxCap -> 0 < maxCap -> fac = Some f ->
       (forall w0, snd (fst (f w0)) = None) ->
       exists c w', NewChannelPool initialCap maxCap fac w = Ret (Some c, None, w')).
Proof.
  unfold TcpPool.NewChannelPool. split; [|split].
  - intros H.
    assert (Hb : (initialCap <? 0) || (maxCap <=? 0) || (initialCap >? maxCap) = true).
    { apply orb_true_iff. rewrite orb_true_iff.
      rewrite Z.ltb_lt, Z.leb_le, Z.gtb_ltb, Z.ltb_lt. lia. }
    rewrite Hb. reflexivity.
  - intros c w'.
    destruct ((initialCap <? 0) || (maxCap <=? 0) || (initialCap >? maxCap)) eqn:Hb;
      try discriminate.
    apply orb_false_iff in Hb. destruct Hb as [Hb Hc].
    apply orb_false_iff in Hb. destruct Hb as [Ha Hb].
    apply Z.ltb_ge in Ha. apply Z.leb_gt in Hb.
    rewrite Z.gtb_ltb in Hc. apply Z.ltb_ge in Hc.
    destruct (fill (Z.to_nat initialCap) fac _ w) as [[[err c1] w1]| |] eqn:HF;
      simpl; try discriminate.
    destruct err as [e|]; try discriminate.
    intros H; inversion H; subst c1 w1; clear H.
    eapply fill_ok in HF; [|reflexivity|unfold len; simpl; lia].
    destruct HF as (b & Hconns & Hlen & Hfac & _). simpl in Hconns.
    assert (HL : Len c = initialCap).
    { unfold Len, getConns. rewrite Hconns. unfold len. simpl. lia. }
    assert (Hbd : bounded maxCap c).
    { unfold bounded. rewrite Hconns. unfold len. simpl. lia. }
    split; [lia|]. split; [lia|].
    split; [exists b; split; [exact Hconns | lia]|].
    split; [exact HL|].
    intros ks c2 w2 H.
    pose proof (do_calls_bounded _ _ _ _ _ _ Hbd H) as Hbd2.
    split; [apply bounded_Len; [lia | exact Hbd2]|].
    intros ch h Hch Hfull. unfold TcpPool.put. rewrite Hch.
    assert (Hlt : (len ch <? cap ch) = false) by (apply Z.ltb_ge; lia).
    rewrite Hlt. destruct (connClose h w2); reflexivity.
  - intros f Hi Hm -> Hf.
    assert (Hb : (initialCap <? 0) || (maxCap <=? 0) || (initialCap >? maxCap) = false).
    { apply orb_false_iff. rewrite orb_false_iff.
      rewrite Z.ltb_ge, Z.leb_gt, Z.gtb_ltb, Z.ltb_ge. lia. }
    rewrite Hb.
    destruct (fill_total (Z.to_nat initialCap) f
                (mkPool (Some (mkChan [] maxCap)) (Some f)) w (mkChan [] maxCap) Hf)
      as (c' & w' & HF).
    + reflexivity.
    + unfold len. simpl. lia.
    + exists c', w'. unfold Factory in *. rewrite HF. reflexivity.
Qed.

(** C10.  On an open pool [Get] never blocks, and when it returns it never
    returns a nil connection with a nil error.  A queued connection is
    handed out wrapped, and the queue loses it.  With an empty queue the
    factory is called: its error is passed on unchanged with a nil
    connection, and without error its connection is handed out wrapped;
    the queue stays empty. *)
Theorem Get_on_open_pool c w ch :
  conns c = Some ch ->
  Get c w <> Block
  /\ (forall r c' w', Get c w = Ret (r, c', w') -> r <> (None, None))
  /\ (forall h rest, buf ch = Some h :: rest ->
        Get c w = Ret ((Some (wrapConn (Some h)), None), set_buf c ch rest, w))
  /\ (forall (f : Factory World) conn e w',
        buf ch = [] -> factory c = Some f -> f w = ((conn, Some e), w') ->
        Get c w = Ret ((None, Some e), c, w'))
  /\ (forall (f : Factory World) conn w',
        buf ch = [] -> factory c = Some f -> f w = ((conn, None), w') ->
        Get c w = Ret ((Some (wrapConn conn), None), c, w')).
Proof.
  intros Hc. unfold Get, getConns. rewrite Hc.
  split; [|split; [|split; [|split]]].
  - destruct (buf ch) as [|[h|] rest]; try discriminate.
    destruct (factory c) as [f|]; try discriminate.
    destruct (f w) as [[conn [e|]] w1]; discriminate.
  - intros r c' w'. destruct (buf ch) as [|[h|] rest].
    + destruct (factory c) as [f|]; try discriminate.
      destruct (f w) as [[conn [e|]] w1]; intros H; inversion H; discriminate.
    + intros H; inversion H; discriminate.
    + intros H; inversion H; discriminate.
  - intros h rest ->. reflexivity.
  - intros f conn e w' -> -> ->. reflexivity.
  - intros f conn w' -> -> ->. reflexivity.
Qed.

End PoolFacts.

(** *** Further properties of the pool *)

Section MorePoolFacts.

Context {World : Type}.
Variable connClose : handle -> World -> option error * World.

Local Abbreviation put := (put World connClose).
Local Abbreviation Close := (Close World connClose).
Local Abbreviation drain := (drain World connClose).
Local Abbreviation PoolConn_Close := (PoolConn_Close World connClose).
Local Abbreviation do_calls := (do_calls World connClose).
Local Abbreviation fill := (fill World connClose).
Local Abbreviation NewChannelPool := (NewChannelPool World connClose).
Local Abbreviation close_all := (close_all World connClose).
Local Abbreviation dial_upto := (dial_upto World).
Local Abbreviation take := (take World).

Implicit Types (c : channelPool World) (w : World) (ch : chan).

Lemma drain_handles hs : forall w,
  drain (map Some hs) w = Ret (close_all hs w).
Proof.
  induction hs as [|h hs IH]; intros w; simpl.
  - reflexivity.
  - destruct (connClose h w) as [e w1]. simpl. apply IH.
Qed.

Lemma drain_nil l : forall w, In None l -> drain l w = Panic.
Proof.
  induction l as [|[h|] l IH]; intros w Hin; simpl.
  - contradiction.
  - destruct Hin as [H|H]; [discriminate|].
    destruct (connClose h w) as [e w1]. simpl. apply IH. exact H.
  - reflexivity.
Qed.

(** The filling loop against [dial_upto]. *)
Lemma fill_dial_upto (f : Factory World) (k : Z) n : forall (b : list netConn) w,
  Z.of_nat (length b) + Z.of_nat n <= k ->
  fill n (Some f) (mkPool (Some (mkChan b k)) (Some f)) w
  = match dial_upto n f w with
    | (l, None, w') => Ret (None, mkPool (Some (mkChan (b ++ l) k)) (Some f), w')
    | (l, Some e, w1) =>
        do w2 <- drain (b ++ l) w1;
        Ret (Some (Errorf "factory is not able to fill the pool: %s" e),
             mkPool None None, w2)
    end.
Proof.
  induction n as [|n IH]; intros b w Hle; simpl TcpPool.fill; simpl TcpPool.dial_upto.
  - cbv beta iota. rewrite app_nil_r. reflexivity.
  - destruct (f w) as [[conn [e|]] w1].
    + cbv beta iota. rewrite app_nil_r. unfold TcpPool.Close. simpl.
      destruct (drain b w1); reflexivity.
    + cbv beta iota. unfold len, set_buf. simpl conns. simpl buf. simpl cap.
      cbv beta iota.
      assert (Hlt : (Z.of_nat (length b) <? k) = true) by (apply Z.ltb_lt; lia).
      rewrite Hlt. simpl factory.
      rewrite IH by (rewrite length_app; simpl; lia).
      destruct (TcpPool.dial_upto World n f w1) as [[l e] w2].
      rewrite <- app_assoc. reflexivity.
Qed.

Lemma valid_settings (i m : Z) :
  0 <= i <= m -> 0 < m -> (i <? 0) || (m <=? 0) || (i >? m) = false.
Proof.
  intros Hi Hm. apply orb_false_iff. rewrite orb_false_iff.
  rewrite Z.ltb_ge, Z.leb_gt, Z.gtb_ltb, Z.ltb_ge. lia.
Qed.

Lemma NewChannelPool_dial_upto (f : Factory World) (i m : Z) w :
  0 <= i <= m -> 0 < m ->
  NewChannelPool i m (Some f) w
  = match dial_upto (Z.to_nat i) f w with
    | (l, None, w') =>
        Ret (Some (mkPool (Some (mkChan l m)) (Some f)), None, w')
    | (l, Some e, w1) =>
        do w2 <- drain l w1;
        Ret (None,
             Some (Errorf "factory is not able to fill the pool: %s" e), w2)
    end.
Proof.
  intros Hi Hm. unfold TcpPool.NewChannelPool.
  rewrite (valid_settings i m Hi Hm).
  rewrite (fill_dial_upto f m (Z.to_nat i) [] w) by (simpl; lia).
  simpl app.
  destruct (TcpPool.dial_upto World (Z.to_nat i) f w) as [[l [e|]] w1].
  - simpl. destruct (drain l w1); reflexivity.
  - reflexivity.
Qed.

(** X8.  With good settings [NewChannelPool] calls the factory until it
    has [initialCap] connections or the factory fails, and never blocks.
    If every call succeeds the pool holds the connections in the order
    they were made.  If a call fails, no pool is handed out, every
    connection made before it has been closed, in the order made, and the
    error is the factory's, wrapped. *)
Theorem NewChannelPool_fills_or_cleans_up (f : Factory World) (i m : Z) w :
  0 <= i <= m -> 0 < m ->
  NewChannelPool i m (Some f) w <> Block
  /\ (forall l w', dial_upto (Z.to_nat i) f w = (l, None, w') ->
        NewChannelPool i m (Some f) w
        = Ret (Some (mkPool (Some (mkChan l m)) (Some f)), None, w'))
  /\ (forall hs e w1, dial_upto (Z.to_nat i) f w = (map Some hs, Some e, w1) ->
        NewChannelPool i m (Some f) w
        = Ret (None,
               Some (Errorf "factory is not able to fill the pool: %s" e),
               close_all hs w1)).
Proof.
  intros Hi Hm. rewrite (NewChannelPool_dial_upto f i m w Hi Hm).
  split; [|split].
  - destruct (TcpPool.dial_upto World (Z.to_nat i) f w) as [[l [e|]] w1];
      [|discriminate].
    destruct (drain l w1) eqn:Hd; simpl; try discriminate.
    clear - Hd. revert w1 Hd. induction l as [|[h|] l IH]; intros w1; simpl.
    + discriminate.
    + destruct (connClose h w1) as [e w2]. simpl. apply IH.
    + discriminate.
  - intros l w' ->. reflexivity.
  - intros hs e w1 ->. rewrite drain_handles. reflexivity.
Qed.

(** X9.  A connection given back through [PoolConn.Close] is queued or
    closed, never dropped: it goes to the back of the queue when it is not
    marked unusable and the pool is open with room; in every other case
    (marked unusable, pool closed, buffer full) it is closed and the pool
    stays as it is. *)
Theorem given_back_is_queued_or_closed c w (p : PoolConn) (h : handle) :
  Conn p = Some h ->
  (forall ch, unusable p = false -> conns c = Some ch -> len ch < cap ch ->
     PoolConn_Close p c w = Ret (None, set_buf c ch (buf ch ++ [Some h]), w))
  /\ (unusable p = true \/ conns c = None
      \/ (exists ch, conns c = Some ch /\ cap ch <= len ch) ->
      PoolConn_Close p c w = Ret (fst (connClose h w), c, snd (connClose h w))).
Proof.
  intros Hp. unfold TcpPool.PoolConn_Close, TcpPool.put. rewrite Hp. split.
  - intros ch -> -> Hlt. apply Z.ltb_lt in Hlt. rewrite Hlt. reflexivity.
  - intros H. destruct (unusable p).
    + destruct (connClose h w); reflexivity.
    + destruct H as [H|[H|(ch & Hc & Hfull)]]; try discriminate.
      * rewrite H. destruct (connClose h w); reflexivity.
      * rewrite Hc. apply Z.ltb_ge in Hfull. rewrite Hfull.
        destruct (connClose h w); reflexivity.
Qed.

Lemma give_back_queues hs : forall c w ch,
  conns c = Some ch ->
  len ch + Z.of_nat (length hs) <= cap ch ->
  do_calls (give_back hs) c w
  = Ret (set_buf c ch (buf ch ++ map Some hs), w).
Proof.
  induction hs as [|h hs IH]; intros c w ch Hc Hle; simpl.
  - rewrite app_nil_r. destruct c as [cs fa], ch as [b k]. simpl in *.
    subst. reflexivity.
  - unfold TcpPool.PoolConn_Close, TcpPool.put. simpl. rewrite Hc.
    assert (Hlt : (len ch <? cap ch) = true).
    { apply Z.ltb_lt. simpl length in Hle. lia. }
    rewrite Hlt. simpl.
    rewrite (IH _ w (mkChan (buf ch ++ [Some h]) (cap ch))).
    + unfold set_buf. simpl. rewrite <- app_assoc. reflexivity.
    + reflexivity.
    + unfold len in *. simpl. rewrite length_app. simpl length in *. lia.
Qed.

Lemma take_queued hs : forall c w ch,
  conns c = Some ch ->
  buf ch = map Some hs ->
  take (length hs) c w
  = Ret (map (fun h => (Some (wrapConn (Some h)), None)) hs, set_buf c ch [], w).
Proof.
  induction hs as [|h hs IH]; intros c w ch Hc Hb; simpl.
  - destruct c as [cs fa], ch as [b k]. simpl in *. subst. reflexivity.
  - unfold Get, getConns. rewrite Hc, Hb. simpl.
    rewrite (IH _ w (mkChan (map Some hs) (cap ch))); reflexivity.
Qed.

(** X10.  The pool is a queue.  Connections given back to an open pool
    with room for them are all kept, and [Get] then hands out what was
    queued before and what was given back, oldest first, without calling
    the factory and without closing anything; the queue is empty
    afterwards. *)
Theorem pool_is_first_in_first_out c w ch (hs0 hs : list handle) :
  conns c = Some ch ->
  buf ch = map Some hs0 ->
  len ch + Z.of_nat (length hs) <= cap ch ->
  exists c1,
    do_calls (give_back hs) c w = Ret (c1, w)
    /\ Len c1 = len ch + Z.of_nat (length hs)
    /\ take (length (hs0 ++ hs)) c1 w
       = Ret (map (fun h => (Some (wrapConn (Some h)), None)) (hs0 ++ hs),
              set_buf c ch [], w).
Proof.
  intros Hc Hb Hle. eexists. split; [apply give_back_queues; eauto|].
  split.
  - unfold Len, getConns, set_buf, len. simpl. rewrite length_app, length_map. lia.
  - rewrite (take_queued (hs0 ++ hs) _ w (mkChan (buf ch ++ map Some hs) (cap ch))).
    + reflexivity.
    + reflexivity.
    + simpl. rewrite Hb, map_app. reflexivity.
Qed.

(** X11.  [Close] on an open pool closes every queued connection, oldest
    first, and leaves the pool closed; it panics if a nil value is
    queued. *)
Theorem Close_closes_all_queued c w ch :
  conns c = Some ch ->
  (forall hs, buf ch = map Some hs ->
     Close c w = Ret (mkPool None None, close_all hs w))
  /\ (In None (buf ch) -> Close c w = Panic).
Proof.
  intros Hc. unfold TcpPool.Close. rewrite Hc. split.
  - intros hs ->. rewrite drain_handles. reflexivity.
  - intros Hin. rewrite (drain_nil _ w Hin). reflexivity.
Qed.

Lemma dial_upto_nil (f : Factory World) n : forall w,
  (forall w0, fst (f w0) = (None, None)) ->
  exists w', dial_upto n f w = (repeat None n, None, w').
Proof.
  induction n as [|n IH]; intros w Hf; simpl.
  - eexists; reflexivity.
  - pose proof (Hf w) as Hw. destruct (f w) as [[conn err] w1].
    simpl in Hw. inversion Hw; subst.
    destruct (IH w1 Hf) as [w' ->]. eexists; reflexivity.
Qed.

(** X12.  [NewChannelPool] does not look at what the factory returns
    without error: with a factory that returns neither a connection nor
    an error the pool is handed out with [initialCap] nil values queued.
    On that open pool [Get] answers [(nil, ErrClosed)] and drops one of
    them, and [Close] panics. *)
Theorem nil_from_factory_is_queued (f : Factory World) (i m : Z) w :
  (forall w0, fst (f w0) = (None, None)) ->
  1 <= i <= m ->
  exists c w',
    NewChannelPool i m (Some f) w = Ret (Some c, None, w')
    /\ Len c = i
    /\ (exists c', Get c w' = Ret ((None, Some ErrClosed), c', w')
                   /\ conns c' <> None /\ Len c' = i - 1)
    /\ Close c w' = Panic.
Proof.
  intros Hf Hi.
  destruct (dial_upto_nil f (Z.to_nat i) w Hf) as [w' Hd].
  exists (mkPool (Some (mkChan (repeat None (Z.to_nat i)) m)) (Some f)), w'.
  split.
  - rewrite NewChannelPool_dial_upto by lia. rewrite Hd. reflexivity.
  - destruct (Z.to_nat i) as [|n] eqn:Hn; [lia|]. split; [|split].
    + unfold Len, getConns, len. cbn [conns buf].
      rewrite <- Hn, repeat_length. lia.
    + eexists. split; [reflexivity|]. split; [discriminate|].
      unfold Len, getConns, len, set_buf. cbn [conns buf].
      rewrite repeat_length. lia.
    + unfold TcpPool.Close. reflexivity.
Qed.

End MorePoolFacts.

(** *** The pool at work in the sample world *)

Example NewChannelPool_fills :
  NewChannelPool netWorld netClose 2 2 (Some dial) world0
  = Ret (Some full2, None, world2).
Proof. reflexivity. Qed.

Example NewChannelPool_factory_fails :
  NewChannelPool netWorld netClose 1 2 (Some dial_fails) world0
  = Ret (None,
         Some (Errorf "factory is not able to fill the pool: %s" refused),
         world0).
Proof. reflexivity. Qed.

Example Get_takes_oldest :
  Get full2 world2
  = Ret ((Some (wrapConn (Some 0%nat)), None),
         mkPool (Some (mkChan [Some 1%nat] 2)) (Some dial), world2).
Proof. reflexivity. Qed.

Example Get_dials_when_empty :
  Get (mkPool (Some (mkChan [] 2)) (Some dial)) world2
  = Ret ((Some (wrapConn (Some 2%nat)), None),
         mkPool (Some (mkChan [] 2)) (Some dial), mkWorld 3 []).
Proof. reflexivity. Qed.

Example Close_closes_queued :
  TcpPool.Close netWorld netClose full2 world2
  = Ret (mkPool None None, mkWorld 2 [0%nat; 1%nat]).
Proof. reflexivity. Qed.


Lemma closed_pool_stays_closed_witness :
  exists w2,
    do_calls netWorld netClose
      [CallGet; CallConnClose (wrapConn (Some 7%nat)); CallLen; CallClose]
      (mkPool None None) (mkWorld 2 [0%nat; 1%nat])
    = Ret (mkPool None None, w2)
    /\ Get (mkPool None None) w2 = Ret ((None, Some ErrClosed), mkPool None None, w2)
    /\ TcpPool.Close netWorld netClose (mkPool None None) w2 = Ret (mkPool None None, w2)
    /\ Len (mkPool (World := netWorld) None None) = 0.
Proof.
  apply (closed_pool_stays_closed netClose full2 world2).
  reflexivity.
Defined.

Lemma pool_never_exceeds_maxCap_witness :
  NewChannelPool netWorld netClose 3 2 (Some dial) world0
  = Ret (None, Some (errorString "invalid capacity settings"), world0)
  /\ (0 <= Len full2 <= 2
      /\ put netWorld netClose (Some 5%nat) full2 world2
         = Ret (None, full2, mkWorld 2 [5%nat]))
  /\ exists c w', NewChannelPool netWorld netClose 2 2 (Some dial) world0
                  = Ret (Some c, None, w').
Proof.
  destruct (pool_never_exceeds_maxCap netClose 3 2 (Some dial) world0) as (Hbad & _ & _).
  destruct (pool_never_exceeds_maxCap netClose 2 2 (Some dial) world0) as (_ & Hok & Hmade).
  split; [|split].
  - apply Hbad. lia.
  - destruct (Hok full2 world2 eq_refl) as (_ & _ & _ & _ & Hcalls).
    destruct (Hcalls [CallLen] full2 world2 eq_refl) as (HLen & Hput).
    split; [exact HLen|].
    apply (Hput (mkChan [Some 0%nat; Some 1%nat] 2) 5%nat); reflexivity.
  - apply (Hmade dial); try lia; reflexivity.
Defined.

Lemma Get_on_open_pool_witness :
  Get full2 world2
  = Ret ((Some (wrapConn (Some 0%nat)), None),
         mkPool (Some (mkChan [Some 1%nat] 2)) (Some dial), world2)
  /\ Get (mkPool (Some (mkChan [] 2)) (Some dial_fails)) world2
     = Ret ((None, Some refused),
            mkPool (Some (mkChan [] 2)) (Some dial_fails), world2).
Proof.
  split.
  - destruct (Get_on_open_pool full2 world2 (mkChan [Some 0%nat; Some 1%nat] 2)
                eq_refl) as (_ & _ & Hqueued & _).
    apply (Hqueued 0%nat [Some 1%nat]). reflexivity.
  - destruct (Get_on_open_pool (mkPool (Some (mkChan [] 2)) (Some dial_fails))
                world2 (mkChan [] 2) eq_refl) as (_ & _ & _ & Hfail & _).
    apply (Hfail dial_fails None refused world2); reflexivity.
Defined.

Lemma NewChannelPool_fills_or_cleans_up_witness :
  NewChannelPool netWorld netClose 2 2 (Some dial_once) world0
  = Ret (None,
         Some (Errorf "factory is not able to fill the pool: %s" refused),
         mkWorld 1 [0%nat]).
Proof.
  destruct (NewChannelPool_fills_or_cleans_up netClose dial_once 2 2 world0
              ltac:(lia) ltac:(lia)) as (_ & _ & Hfail).
  apply (Hfail [0%nat] refused (mkWorld 1 [])). reflexivity.
Defined.

Lemma given_back_is_queued_or_closed_witness :
  PoolConn_Close netWorld netClose (wrapConn (Some 5%nat))
    (mkPool (Some (mkChan [Some 0%nat] 2)) (Some dial)) world2
  = Ret (None, mkPool (Some (mkChan [Some 0%nat; Some 5%nat] 2)) (Some dial),
         world2)
  /\ PoolConn_Close netWorld netClose (wrapConn (Some 5%nat))
       (mkPool None None) world2
     = Ret (None, mkPool None None, mkWorld 2 [5%nat]).
Proof.
  split.
  - destruct (given_back_is_queued_or_closed netClose
                (mkPool (Some (mkChan [Some 0%nat] 2)) (Some dial)) world2
                (wrapConn (Some 5%nat)) 5%nat eq_refl) as [Hq _].
    apply (Hq (mkChan [Some 0%nat] 2)); try reflexivity.
  - destruct (given_back_is_queued_or_closed netClose
                (mkPool None None) world2
                (wrapConn (Some 5%nat)) 5%nat eq_refl) as [_ Hc].
    apply Hc. right. left. reflexivity.
Defined.

Lemma pool_is_first_in_first_out_witness :
  exists c1,
    do_calls netWorld netClose (give_back [7%nat; 8%nat])
      (mkPool (Some (mkChan [Some 0%nat] 3)) (Some dial)) world2
    = Ret (c1, world2)
    /\ Len c1 = 3
    /\ take netWorld 3 c1 world2
       = Ret ([(Some (wrapConn (Some 0%nat)), None);
               (Some (wrapConn (Some 7%nat)), None);
               (Some (wrapConn (Some 8%nat)), None)],
              mkPool (Some (mkChan [] 3)) (Some dial), world2).
Proof.
  apply (pool_is_first_in_first_out netClose
           (mkPool (Some (mkChan [Some 0%nat] 3)) (Some dial)) world2
           (mkChan [Some 0%nat] 3) [0%nat] [7%nat; 8%nat]).
  - reflexivity.
  - reflexivity.
  - vm_compute. discriminate.
Defined.

Lemma Close_closes_all_queued_witness :
  TcpPool.Close netWorld netClose full2 world2
  = Ret (mkPool None None, mkWorld 2 [0%nat; 1%nat])
  /\ TcpPool.Close netWorld netClose
       (mkPool (Some (mkChan [Some 0%nat; None] 2)) (Some dial)) world2
     = Panic.
Proof.
  split.
  - destruct (Close_closes_all_queued netClose full2 world2
                (mkChan [Some 0%nat; Some 1%nat] 2) eq_refl) as [Hall _].
    apply (Hall [0%nat; 1%nat]). reflexivity.
  - destruct (Close_closes_all_queued netClose
                (mkPool (Some (mkChan [Some 0%nat; None] 2)) (Some dial))
                world2 (mkChan [Some 0%nat; None] 2) eq_refl) as [_ Hnil].
    apply Hnil. simpl. auto.
Defined.

Lemma nil_from_factory_is_queued_witness :
  exists c w',
    NewChannelPool netWorld netClose 1 2 (Some dial_nil) world0
    = Ret (Some c, None, w')
    /\ Len c = 1
    /\ (exists c', Get c w' = Ret ((None, Some ErrClosed), c', w')
                   /\ conns c' <> None /\ Len c' = 1 - 1)
    /\ TcpPool.Close netWorld netClose c w' = Panic.
Proof.
  apply (nil_from_factory_is_queued netClose dial_nil 1 2 world0).
  - intros w0. reflexivity.
  - lia.
Defined.

End TcpPoolProofs.

(* ================================================================== *)
(** * Properties of the worker wrapper *)
(* ================================================================== *)

Module GoroutineProofs.
Import Goroutine.

(** *** Traces *)

Lemma each_prefix_nil P : each_prefix P [].
Proof. intros h e l2 H. destruct h; discriminate. Qed.

Lemma snoc_split (x e : event) : forall h l l2,
  l ++ [x] = h ++ e :: l2 ->
  (l2 = [] /\ h = l /\ e = x) \/ (exists l2', l2 = l2' ++ [x] /\ l = h ++ e :: l2').
Proof.
  induction h as [|a h IH]; intros l l2 H.
  - destruct l as [|b l]; simpl in H; inversion H; subst.
    + left. auto.
    + right. exists l. auto.
  - destruct l as [|b l]; simpl in H; inversion H; subst.
    + destruct h; discriminate.
    + destruct (IH _ _ H2) as [(-> & -> & ->) | (l2' & -> & ->)].
      * left. auto.
      * right. exists l2'. auto.
Qed.

Lemma each_prefix_snoc P l x :
  each_prefix P l -> P l x -> each_prefix P (l ++ [x]).
Proof.
  intros Hl Hx h e l2 H. apply snoc_split in H.
  destruct H as [(_ & -> & ->) | (l2' & _ & ->)].
  - exact Hx.
  - eapply Hl. reflexivity.
Qed.

Lemma count_snoc f l x : count f (l ++ [x]) = (count f l + b2n (f x))%nat.
Proof.
  induction l as [|e l IH]; simpl.
  - destruct (f x); reflexivity.
  - destruct (f e); rewrite IH; reflexivity.
Qed.

Lemma last_such_snoc f l x :
  last_such f (l ++ [x]) = if f x then Some x else last_such f l.
Proof. unfold last_such. rewrite fold_left_app. reflexivity. Qed.

Lemma same_refl e : same e e = true.
Proof. unfold same. destruct (event_eq_dec e e); congruence. Qed.

Lemma same_true e x : same e x = true -> e = x.
Proof. unfold same. destruct (event_eq_dec e x); congruence. Qed.

Lemma count_same_In e l : In e l <-> count (same e) l <> O.
Proof.
  induction l as [|x l IH]; simpl.
  - split; [tauto | congruence].
  - destruct (same e x) eqn:Hx.
    + apply same_true in Hx. subst. split; [discriminate | auto].
    + rewrite <- IH. split; [|auto]. intros [H|H]; [|exact H].
      subst. rewrite same_refl in Hx. discriminate.
Qed.

Lemma counted_In e l : count (same e) l = 1%nat -> In e l.
Proof. intros H. apply count_same_In. lia. Qed.

Lemma uncounted_not_In e l : count (same e) l = O -> ~ In e l.
Proof. intros H Hin. apply count_same_In in Hin. auto. Qed.

(** *** One step *)

Lemma Some_inj {A : Type} (x y : A) : Some x = Some y -> x = y.
Proof. intros H. injection H as H. exact H. Qed.

Ltac break_match H :=
  match type of H with
  | context [match ?x with _ => _ end] => is_var x; destruct x eqn:?
  | context [if ?x =? ?y then _ else _] => destruct (x =? y) eqn:?
  end.

Ltac step_norm H :=
  cbv beta iota zeta delta
    [step Open Close Join Interrupt recv_ready recv_output send_job Loop
     emit set_loop set_close set_join set_wrapper set_readyChan set_jobChan
     set_outputChan set_poolOpen option_map snd
     ready_of output_of job_of flag_of
     wrapper readyChan jobChan outputChan poolOpen worker
     loop_at close_at join_at trace extended interruptable] in H.

(** All the ways [step a s = Some s'] can hold, [s] being a record. *)
Ltac step_inv H :=
  step_norm H;
  repeat (break_match H; cbv beta iota in H; try discriminate H);
  apply Some_inj in H; subst.

Ltac use_hyps :=
  repeat match goal with
         | H : ?x = ?x -> _ |- _ => specialize (H eq_refl)
         | H : _ /\ _ |- _ => destruct H
         | H : exists _, _ |- _ => destruct H
         end.

Lemma step_wf a s s' : wf s -> step a s = Some s' -> wf s'.
Proof.
  intros [Hr Ho Hj Hf Hfresh Hleave H72 Hbroke] Hstep.
  destruct s as [[rc jc oc po [ext intr]] lp cp jp tr]. simpl in *.
  subst rc jc oc po.
  destruct a; step_inv Hstep; simpl in *; use_hyps; subst;
    constructor; simpl in *;
    try reflexivity; try discriminate; try congruence; intros;
    try discriminate; auto;
    repeat match goal with
           | b : bool |- _ => destruct b
           | p : join_pc |- _ => destruct p
           end;
    simpl in *; intuition (try discriminate; try congruence).
Qed.

Ltac snoc_simpl :=
  simpl in *; rewrite ?count_snoc, ?last_such_snoc in *; simpl in *.

Ltac finish :=
  use_hyps; repeat split; intros; eauto; try lia; try congruence; try discriminate.

Ltac grow P :=
  unfold P; repeat apply each_prefix_snoc; try assumption.

Lemma step_worker a s s' : step a s = Some s' -> worker (wrapper s') = worker (wrapper s).
Proof.
  intros Hstep. destruct s as [[rc jc oc po w] lp cp jp tr].
  destruct a; step_inv Hstep; reflexivity.
Qed.

Lemma step_cycle a s s' : cycle_inv s -> step a s = Some s' -> cycle_inv s'.
Proof.
  intros Hc Hstep. destruct s as [[rc jc oc po w] lp cp jp tr].
  unfold cycle_inv, received, sent in *. simpl in *.
  destruct a; step_inv Hstep; try destruct lp; snoc_simpl; finish.
Qed.

Lemma step_one_job a s s' :
  cycle_inv s -> one_job_at_a_time (trace s) -> step a s = Some s' ->
  one_job_at_a_time (trace s').
Proof.
  intros Hc Ht Hstep. destruct s as [[rc jc oc po w] lp cp jp tr].
  unfold cycle_inv, received, sent in *. simpl in *.
  destruct a; step_inv Hstep; grow one_job_at_a_time;
    unfold received, sent; snoc_simpl; finish.
Qed.

Lemma step_handshake a s s' :
  wf s -> handshake_inv s -> step a s = Some s' -> handshake_inv s'.
Proof.
  intros [Hr Ho Hj Hf Hfresh Hleave H72 Hbroke] Hh Hstep.
  destruct s as [[rc jc oc po w] lp cp jp tr].
  unfold handshake_inv in *. simpl in *. subst rc jc oc po.
  destruct a; step_inv Hstep; try destruct lp; snoc_simpl;
    try (destruct cp; simpl in *; try discriminate);
    intuition (try discriminate; try congruence).
Qed.

Lemma step_ready_before_job a s s' :
  handshake_inv s -> ready_before_job (trace s) -> step a s = Some s' ->
  ready_before_job (trace s').
Proof.
  intros Hh Ht Hstep. destruct s as [[rc jc oc po w] lp cp jp tr].
  unfold handshake_inv in *. simpl in *.
  destruct a; step_inv Hstep; grow ready_before_job; snoc_simpl; finish.
Qed.

Lemma step_seen_closed a s s' :
  seen_closed_inv s -> step a s = Some s' -> seen_closed_inv s'.
Proof.
  intros Hs Hstep. destruct s as [[rc jc oc po w] lp cp jp tr].
  unfold seen_closed_inv in *. simpl in *.
  destruct a; step_inv Hstep; snoc_simpl; eauto;
    try (intros Hx; inversion Hx; subst; simpl in *; discriminate);
    try (intros Hx; destruct (Hs Hx) as [ph Hph]; discriminate).
Qed.

Lemma step_signals a s s' :
  wf s -> once_inv s -> seen_closed_inv s ->
  signals_after_seeing_closed (trace s) -> step a s = Some s' ->
  signals_after_seeing_closed (trace s').
Proof.
  intros Hwf [_ _ _ Hjob _ _ _] Hs Ht Hstep.
  pose proof (wf_leaving s Hwf) as Hleave.
  destruct s as [[rc jc oc po w] lp cp jp tr].
  unfold seen_closed_inv in *. simpl in *.
  destruct a; step_inv Hstep; grow signals_after_seeing_closed;
    snoc_simpl; split; intros; try discriminate; try reflexivity;
    try (match goal with H : _ = Some (EvLoad 0) |- _ =>
           destruct (Hs H) as [? Hph]; discriminate end).
  apply counted_In. rewrite Hjob.
  destruct cp; simpl; auto. exfalso. apply Hleave; reflexivity.
Qed.

Lemma step_once a s s' :
  wf s -> once_inv s -> step a s = Some s' -> once_inv s'.
Proof.
  intros Hwf [Hi Hg Ht Hj Hr Ho Hs] Hstep.
  pose proof (wf_job s Hwf) as Hjc. clear Hwf.
  destruct s as [[rc jc oc po [ext intr]] lp cp jp tr]. simpl in *. subst jc.
  destruct a; step_inv Hstep; constructor;
    cbv beta iota delta [trace wrapper worker loop_at close_at join_at extended];
    rewrite ?count_snoc; cbn;
    rewrite ?Nat.add_0_r, ?andb_false_r, ?andb_true_r; cbn in *;
    try assumption; try lia;
    repeat match goal with b : bool |- _ => destruct b end;
    cbn in *; lia.
Qed.

Ltac in_trace :=
  first [ rewrite ?in_app_iff; simpl; tauto
        | apply counted_In; assumption
        | apply uncounted_not_In; assumption ].

Lemma step_lifecycle a s s' :
  extended (worker (wrapper s)) = true -> wf s -> once_inv s ->
  lifecycle_order (trace s) -> step a s = Some s' ->
  lifecycle_order (trace s').
Proof.
  intros Hext Hwf [Hi Hg Ht Hj Hr Ho Hs] Hl Hstep.
  pose proof (wf_broke s Hwf) as Hbroke.
  pose proof (wf_leaving s Hwf) as Hleave.
  pose proof (wf_job s Hwf) as Hjc. clear Hwf.
  destruct s as [[rc jc oc po [ext intr]] lp cp jp tr]. simpl in *. subst jc ext.
  destruct a; step_inv Hstep; grow lifecycle_order; cbn in *;
    use_hyps; try discriminate; subst; cbn in *; auto;
    repeat split; try in_trace;
    repeat match goal with p : close_pc |- _ => destruct p end;
    cbn in *; try in_trace; exfalso; auto.
Qed.

Lemma step_join_reports a s s' :
  wf s -> once_inv s -> join_reports_truthfully (trace s) ->
  step a s = Some s' -> join_reports_truthfully (trace s').
Proof.
  intros Hwf [Hi Hg Ht Hj Hr Ho Hs] Hl Hstep.
  pose proof (wf_j72 s Hwf) as H72.
  pose proof (wf_ready s Hwf) as Hrc.
  pose proof (wf_output s Hwf) as Hoc. clear Hwf.
  destruct s as [[rc jc oc po [ext intr]] lp cp jp tr]. simpl in *. subst rc oc.
  destruct a; step_inv Hstep; grow join_reports_truthfully; cbn in *;
    use_hyps; subst; cbn in *; auto; repeat split; intros;
    try discriminate; try in_trace.
  subst readyOpen. specialize (H72 eq_refl). discriminate.
Qed.

(** *** Runs *)

Lemma run_app acts1 : forall acts2 s,
  run (acts1 ++ acts2) s
  = match run acts1 s with Some s1 => run acts2 s1 | None => None end.
Proof.
  induction acts1 as [|a acts1 IH]; intros acts2 s; simpl.
  - reflexivity.
  - destruct (step a s); [apply IH | reflexivity].
Qed.

Lemma run_worker acts : forall s s', run acts s = Some s' -> worker (wrapper s') = worker (wrapper s).
Proof.
  induction acts as [|a acts IH]; intros s s'; simpl.
  - intros H; inversion H; reflexivity.
  - destruct (step a s) as [s1|] eqn:Hs; [|discriminate].
    intros H. rewrite (IH _ _ H). eapply step_worker; eauto.
Qed.

Lemma init_wf w : wf (init w).
Proof. constructor; simpl; auto; discriminate. Qed.

Lemma init_once w : once_inv (init w).
Proof. constructor; simpl; rewrite ?andb_false_r; reflexivity. Qed.

Lemma run_wf acts : forall s s', wf s -> run acts s = Some s' -> wf s'.
Proof.
  induction acts as [|a acts IH]; intros s s' Hwf; simpl.
  - intros H; inversion H; subst; assumption.
  - destruct (step a s) as [s1|] eqn:Hs; [|discriminate].
    apply IH. eapply step_wf; eauto.
Qed.

Lemma run_once acts : forall s s',
  wf s -> once_inv s -> run acts s = Some s' -> once_inv s'.
Proof.
  induction acts as [|a acts IH]; intros s s' Hwf Ho; simpl.
  - intros H; inversion H; subst; assumption.
  - destruct (step a s) as [s1|] eqn:Hs; [|discriminate].
    apply IH; [eapply step_wf | eapply step_once]; eauto.
Qed.

Lemma run_one_job acts : forall s s',
  cycle_inv s -> one_job_at_a_time (trace s) -> run acts s = Some s' ->
  cycle_inv s' /\ one_job_at_a_time (trace s').
Proof.
  induction acts as [|a acts IH]; intros s s' Hc Ht; simpl.
  - intros H; inversion H; subst; auto.
  - destruct (step a s) as [s1|] eqn:Hs; [|discriminate].
    apply IH; [eapply step_cycle | eapply step_one_job]; eauto.
Qed.

Lemma run_ready_before_job acts : forall s s',
  wf s -> handshake_inv s -> ready_before_job (trace s) -> run acts s = Some s' ->
  ready_before_job (trace s').
Proof.
  induction acts as [|a acts IH]; intros s s' Hwf Hh Ht; simpl.
  - intros H; inversion H; subst; auto.
  - destruct (step a s) as [s1|] eqn:Hs; [|discriminate].
    apply IH; [eapply step_wf | eapply step_handshake
               | eapply step_ready_before_job]; eauto.
Qed.

Lemma run_signals acts : forall s s',
  wf s -> once_inv s -> seen_closed_inv s ->
  signals_after_seeing_closed (trace s) -> run acts s = Some s' ->
  signals_after_seeing_closed (trace s').
Proof.
  induction acts as [|a acts IH]; intros s s' Hwf Ho Hs Ht; simpl.
  - intros H; inversion H; subst; auto.
  - destruct (step a s) as [s1|] eqn:Hstep; [|discriminate].
    apply IH; [eapply step_wf | eapply step_once | eapply step_seen_closed
               | eapply step_signals]; eauto.
Qed.

Lemma run_lifecycle acts : forall s s',
  extended (worker (wrapper s)) = true -> wf s -> once_inv s ->
  lifecycle_order (trace s) -> run acts s = Some s' ->
  lifecycle_order (trace s').
Proof.
  induction acts as [|a acts IH]; intros s s' He Hwf Ho Ht; simpl.
  - intros H; inversion H; subst; auto.
  - destruct (step a s) as [s1|] eqn:Hstep; [|discriminate].
    apply IH; [ rewrite (step_worker _ _ _ Hstep); exact He
              | eapply step_wf | eapply step_once | eapply step_lifecycle];
      eauto.
Qed.

Lemma run_join_reports acts : forall s s',
  wf s -> once_inv s -> join_reports_truthfully (trace s) ->
  run acts s = Some s' -> join_reports_truthfully (trace s').
Proof.
  induction acts as [|a acts IH]; intros s s' Hwf Ho Ht; simpl.
  - intros H; inversion H; subst; auto.
  - destruct (step a s) as [s1|] eqn:Hstep; [|discriminate].
    apply IH; [eapply step_wf | eapply step_once | eapply step_join_reports];
      eauto.
Qed.

(** Only [wrapper.Interrupt()] on an interruptable worker adds a call of
    the worker's [Interrupt]. *)
Lemma step_interrupts a s s' :
  step a s = Some s' ->
  count (same EvInterrupt) (trace s')
  = (count (same EvInterrupt) (trace s)
     + b2n (interruptable (worker (wrapper s))
            && if action_eq_dec a CallInterrupt then true else false))%nat.
Proof.
  intros Hstep. destruct s as [[rc jc oc po [ext intr]] lp cp jp tr].
  destruct a; step_inv Hstep;
    cbv beta iota delta [trace wrapper worker interruptable];
    rewrite ?count_snoc; cbn; rewrite ?andb_false_r; cbn; lia.
Qed.

Lemma run_interrupts acts : forall s s',
  run acts s = Some s' ->
  count (same EvInterrupt) (trace s')
  = (count (same EvInterrupt) (trace s)
     + if interruptable (worker (wrapper s))
       then count_occ action_eq_dec acts CallInterrupt else 0)%nat.
Proof.
  induction acts as [|a acts IH]; intros s s'; simpl run.
  - intros H; inversion H; subst. simpl. destruct (interruptable _); lia.
  - destruct (step a s) as [s1|] eqn:Hstep; [|discriminate].
    intros H. rewrite (IH _ _ H), (step_interrupts _ _ _ Hstep).
    rewrite (step_worker _ _ _ Hstep). simpl count_occ.
    destruct (interruptable (worker (wrapper s))); simpl;
      destruct (action_eq_dec a CallInterrupt); simpl; lia.
Qed.

(** *** Sample runs *)

Example one_job_trace :
  option_map trace (run one_job (init full))
  = Some [EvInitialize; EvMake; EvStore 1; EvGo; EvReady false; EvLoad 1;
          EvSleep 5000000; EvReady true; EvSendReady; EvRecvJob 10; EvJob 10;
          EvJobRet 10 20; EvSendOutput 20; EvReady true; EvInterrupt;
          EvCloseJob; EvStore 0; EvSendReady; EvCloseReady; EvCloseOutput;
          EvJoinSaw true false; EvJoinSaw false false; EvTerminate].
Proof. vm_compute. reflexivity. Qed.

(** Before [Open] the channels are nil: [Close] would panic and [Join]
    would block for ever. *)
Example nothing_before_Open w :
  step CallClose (init w) = None /\ step CallJoin (init w) = None.
Proof. split; reflexivity. Qed.

(** A job cannot be handed over once the job channel is closed. *)
Example no_job_after_Close :
  run [CallOpen; LoopReady true; PoolRecvReady; CallClose; PoolSendJob 10]
      (init plain) = None.
Proof. vm_compute. reflexivity. Qed.

(** *** The claims *)

(** C1.  In every run of a wrapper at most one job is in flight: when a
    job is received from the job channel, the result of every job received
    before it has already been sent on the output channel; a job is
    called, returns and has its result sent in this order; and the number
    of jobs received exceeds the number of results sent by at most one. *)
Theorem at_most_one_job_in_flight w acts s :
  run acts (init w) = Some s ->
  (forall h d rest, trace s = h ++ EvRecvJob d :: rest -> received h = sent h)
  /\ one_job_at_a_time (trace s)
  /\ (sent (trace s) <= received (trace s) <= S (sent (trace s)))%nat.
Proof.
  intros Hrun.
  destruct (run_one_job acts (init w) s) as [Hc Ht]; auto.
  - reflexivity.
  - apply each_prefix_nil.
  - split; [|split].
    + intros h d rest Htr. apply (Ht h (EvRecvJob d) rest Htr).
    + exact Ht.
    + unfold cycle_inv in Hc. fold (received (trace s)) in Hc.
      destruct (loop_at s); use_hyps; lia.
Qed.

Lemma at_most_one_job_in_flight_witness :
  exists s, run one_job (init full) = Some s
  /\ (forall h d rest, trace s = h ++ EvRecvJob d :: rest -> received h = sent h)
  /\ one_job_at_a_time (trace s)
  /\ (sent (trace s) <= received (trace s) <= S (sent (trace s)))%nat.
Proof.
  eexists. split; [vm_compute; reflexivity|].
  apply (at_most_one_job_in_flight full one_job). vm_compute; reflexivity.
Defined.

(** C2.  In every run of a wrapper, whenever the worker's [Job] is invoked
    the most recent call of its [Ready] returned true (and no other [Job]
    was invoked since). *)
Theorem job_only_after_ready w acts s :
  run acts (init w) = Some s ->
  (forall h d rest, trace s = h ++ EvJob d :: rest ->
     last_such is_Ready h = Some (EvReady true))
  /\ ready_before_job (trace s).
Proof.
  intros Hrun.
  assert (Ht : ready_before_job (trace s)).
  { apply (run_ready_before_job acts (init w) s); auto.
    - apply init_wf.
    - exact I.
    - apply each_prefix_nil. }
  split; [|exact Ht].
  intros h d rest Htr. apply (Ht h (EvJob d) rest Htr).
Qed.

Lemma job_only_after_ready_witness :
  exists s, run one_job (init full) = Some s
  /\ (forall h d rest, trace s = h ++ EvJob d :: rest ->
        last_such is_Ready h = Some (EvReady true))
  /\ ready_before_job (trace s).
Proof.
  eexists. split; [vm_compute; reflexivity|].
  apply (job_only_after_ready full one_job). vm_compute; reflexivity.
Defined.

(** C3 does not hold as the spec states it.  A worker that is not ready
    while the pool is closed: Loop reads the cleared flag, leaves the
    polling loop, and then sends on the ready channel (taken by Join); it
    has not exited but waits on the job channel.  The same after a job. *)
Lemma ready_signalled_after_close :
  (exists s, run closed_while_warming (init plain) = Some s
     /\ trace s = [EvMake; EvStore 1; EvGo; EvReady false; EvCloseJob;
                   EvStore 0; EvLoad 0; EvSendReady]
     /\ loop_at s = LRange
     /\ ~ no_signal_once_closed (trace s))
  /\ (exists s, run closed_during_job (init plain) = Some s
     /\ trace s = [EvMake; EvStore 1; EvGo; EvReady true; EvSendReady;
                   EvRecvJob 10; EvJob 10; EvCloseJob; EvStore 0;
                   EvJobRet 10 20; EvSendOutput 20; EvReady false;
                   EvLoad 0; EvSendReady]
     /\ ~ no_signal_once_closed (trace s)).
Proof.
  split.
  - eexists. split; [vm_compute; reflexivity|].
    split; [reflexivity|]. split; [reflexivity|].
    intros H.
    apply (H [EvMake; EvStore 1; EvGo; EvReady false; EvCloseJob;
              EvStore 0; EvLoad 0] EvSendReady [] eq_refl).
    simpl. tauto.
  - eexists. split; [vm_compute; reflexivity|]. split; [reflexivity|].
    intros H.
    apply (H [EvMake; EvStore 1; EvGo; EvReady true; EvSendReady;
              EvRecvJob 10; EvJob 10; EvCloseJob; EvStore 0;
              EvJobRet 10 20; EvSendOutput 20; EvReady false; EvLoad 0]
             EvSendReady [] eq_refl).
    simpl. tauto.
Qed.

(** C3 as the code has it.  When a poll of [Ready] fails and Loop reads 0
    from the open flag it stops polling, in the warming-up state and after
    a job alike, and what it does next is the send on the ready channel;
    a receiver gets the signal and Loop goes on to wait on the job
    channel.  Loop closes its channels only after the job channel was
    closed. *)
Theorem ready_signalled_after_seeing_closed w acts s :
  run acts (init w) = Some s ->
  signals_after_seeing_closed (trace s)
  /\ (forall ph, loop_at s = LCheck ph -> poolOpen (wrapper s) = 0 ->
       exists s1, step LoopStep s = Some s1
                  /\ loop_at s1 = LSignal ph
                  /\ trace s1 = trace s ++ [EvLoad 0])
  /\ (forall ph, loop_at s = LSignal ph ->
       exists s2, recv_ready s = Some (true, s2)
                  /\ loop_at s2 = LRange
                  /\ trace s2 = trace s ++ [EvSendReady]).
Proof.
  intros Hrun.
  pose proof (run_wf acts _ _ (init_wf w) Hrun) as Hwf.
  split; [|split].
  - apply (run_signals acts (init w) s); auto.
    + apply init_wf.
    + apply init_once.
    + discriminate.
    + apply each_prefix_nil.
  - intros ph Hpc Hflag. destruct s as [[rc jc oc po wk] lp cp jp tr].
    simpl in *. subst lp po. eexists. split; [vm_compute; reflexivity|]. auto.
  - intros ph Hpc. pose proof (wf_ready s Hwf) as Hrc.
    destruct s as [[rc jc oc po wk] lp cp jp tr].
    simpl in *. subst lp rc. eexists. split; [vm_compute; reflexivity|]. auto.
Qed.

Lemma ready_signalled_after_seeing_closed_witness :
  exists s, run [CallOpen; LoopReady false; CallClose; CallClose; LoopStep]
                (init plain) = Some s
  /\ signals_after_seeing_closed (trace s)
  /\ trace s = [EvMake; EvStore 1; EvGo; EvReady false; EvCloseJob;
                EvStore 0; EvLoad 0]
  /\ exists s2, recv_ready s = Some (true, s2)
                /\ loop_at s2 = LRange
                /\ trace s2 = trace s ++ [EvSendReady].
Proof.
  eexists. split; [vm_compute; reflexivity|].
  destruct (ready_signalled_after_seeing_closed plain
              [CallOpen; LoopReady false; CallClose; CallClose; LoopStep]
              _ ltac:(vm_compute; reflexivity)) as (Ht & _ & Hsig).
  split; [exact Ht|]. split; [reflexivity|].
  apply (Hsig WarmUp). reflexivity.
Defined.

(** C4.  For a worker with the extended capability, in every run:
    [Initialize] has been called exactly once as soon as [Open] has run,
    before Loop is started and before any [Ready] check; [Terminate] has
    been called exactly once when [Join] has returned and not at all
    before; and when it is called, [Close] has closed the job channel,
    Loop has closed the ready and the output channel, and Join has seen
    both closed. *)
Theorem initialize_and_terminate_once w acts s :
  extended w = true ->
  run acts (init w) = Some s ->
  count (same EvInitialize) (trace s) = b2n (started (loop_at s))
  /\ count (same EvTerminate) (trace s)
     = b2n (match join_at s with JReturned => true | _ => false end)
  /\ (forall h b rest, trace s = h ++ EvReady b :: rest ->
        In EvInitialize h /\ In EvGo h)
  /\ (forall h rest, trace s = h ++ EvGo :: rest -> In EvInitialize h)
  /\ (forall h rest, trace s = h ++ EvTerminate :: rest ->
        In EvCloseJob h /\ In EvCloseReady h /\ In EvCloseOutput h
        /\ In (EvJoinSaw false false) h)
  /\ lifecycle_order (trace s).
Proof.
  intros Hext Hrun.
  pose proof (run_once acts _ _ (init_wf w) (init_once w) Hrun) as Ho.
  pose proof (run_worker acts _ _ Hrun) as Hw. simpl in Hw.
  assert (Hl : lifecycle_order (trace s)).
  { apply (run_lifecycle acts (init w) s); auto.
    - apply init_wf.
    - apply init_once.
    - apply each_prefix_nil. }
  destruct Ho as [Hi _ Ht _ _ _ _]. rewrite Hw, Hext in Hi, Ht. simpl in Hi, Ht.
  split; [exact Hi|]. split; [exact Ht|].
  split; [|split; [|split]].
  - intros h b rest Htr. apply (Hl h (EvReady b) rest Htr).
  - intros h rest Htr. apply (Hl h EvGo rest Htr).
  - intros h rest Htr. apply (Hl h EvTerminate rest Htr).
  - exact Hl.
Qed.

Lemma initialize_and_terminate_once_witness :
  exists s, run one_job (init full) = Some s
  /\ count (same EvInitialize) (trace s) = 1%nat
  /\ count (same EvTerminate) (trace s) = 1%nat
  /\ lifecycle_order (trace s).
Proof.
  eexists. split; [vm_compute; reflexivity|].
  destruct (initialize_and_terminate_once full one_job _ eq_refl
              ltac:(vm_compute; reflexivity)) as (Hi & Ht & _ & _ & _ & Hl).
  split; [exact Hi|]. split; [exact Ht|]. exact Hl.
Defined.

(** C5.  In every run: once Loop has returned, the ready and the output
    channel are closed; each round of Join reports a channel as closed
    only if Loop has closed it, and Join has left its drain loop exactly
    when a round has reported both closed; and if Loop has returned, Join
    runs to its end without blocking, in three steps when it has not
    begun and in at most four from anywhere in its loop. *)
Theorem join_ends_when_both_closed w acts s :
  run acts (init w) = Some s ->
  (loop_at s = LReturned ->
     readyChan (wrapper s) = ChClosed /\ outputChan (wrapper s) = ChClosed
     /\ In EvCloseReady (trace s) /\ In EvCloseOutput (trace s))
  /\ join_reports_truthfully (trace s)
  /\ (join_broke (join_at s) = true <-> In (EvJoinSaw false false) (trace s))
  /\ (loop_at s = LReturned -> join_at s = J71 ->
       exists s', run [CallJoin; CallJoin; CallJoin] s = Some s'
                  /\ join_at s' = JReturned
                  /\ trace s' = trace s ++ EvJoinSaw false false
                                  :: (if extended w then [EvTerminate] else []))
  /\ (loop_at s = LReturned ->
       exists n s', (n <= 4)%nat /\ run (repeat CallJoin n) s = Some s'
                    /\ join_at s' = JReturned).
Proof.
  intros Hrun.
  pose proof (run_wf acts _ _ (init_wf w) Hrun) as Hwf.
  pose proof (run_once acts _ _ (init_wf w) (init_once w) Hrun) as Ho.
  pose proof (run_worker acts _ _ Hrun) as Hw. simpl in Hw.
  pose proof (wf_ready s Hwf) as Hrc. pose proof (wf_output s Hwf) as Hoc.
  destruct Ho as [_ _ _ _ Hr Hout Hsaw].
  split; [|split; [|split; [|split]]].
  - intros Hpc. rewrite Hpc in *. simpl in *.
    repeat split; auto; apply counted_In; assumption.
  - apply (run_join_reports acts (init w) s); auto.
    + apply init_wf.
    + apply init_once.
    + apply each_prefix_nil.
  - rewrite count_same_In, Hsaw. destruct (join_broke (join_at s)); simpl.
    + split; [discriminate | reflexivity].
    + split; [discriminate | congruence].
  - intros Hpc Hj. destruct s as [[rc jc oc po wk] lp cp jp tr].
    simpl in *. subst. simpl.
    destruct (extended w); eexists; (split; [reflexivity|]); split;
      try reflexivity; simpl; rewrite <- app_assoc; reflexivity.
  - intros Hpc. destruct s as [[rc jc oc po wk] lp cp jp tr].
    simpl in *. subst. destruct jp as [|[|]| |].
    + exists 3%nat. eexists. split; [lia|]. split; reflexivity.
    + exists 4%nat. eexists. split; [lia|]. split; reflexivity.
    + exists 2%nat. eexists. split; [lia|]. split; reflexivity.
    + exists 1%nat. eexists. split; [lia|]. split; reflexivity.
    + exists 0%nat. eexists. split; [lia|]. split; reflexivity.
Qed.

Lemma join_ends_when_both_closed_witness :
  exists s, run loop_exits_first (init full) = Some s
  /\ loop_at s = LReturned /\ join_at s = J71
  /\ exists s', run [CallJoin; CallJoin; CallJoin] s = Some s'
                /\ join_at s' = JReturned
                /\ trace s' = trace s ++ [EvJoinSaw false false; EvTerminate].
Proof.
  eexists. split; [vm_compute; reflexivity|].
  split; [reflexivity|]. split; [reflexivity|].
  destruct (join_ends_when_both_closed full loop_exits_first _
              ltac:(vm_compute; reflexivity)) as (_ & _ & _ & Hjoin & _).
  apply Hjoin; reflexivity.
Defined.

(** C6.  [wrapper.Interrupt()] can always be called and does what
    [Interrupt] does: on a worker with the interruptable capability it
    calls the worker's [Interrupt] once and changes nothing else; on any
    other worker it leaves the wrapper as it is and calls nothing.  So in
    every run the worker's [Interrupt] has been called as often as
    [wrapper.Interrupt()] if the worker is interruptable, and never if it
    is not. *)
Theorem Interrupt_forwards_iff_interruptable w acts s :
  run acts (init w) = Some s ->
  step CallInterrupt s = Some (Interrupt s)
  /\ (interruptable w = true -> Interrupt s = emit EvInterrupt s)
  /\ (interruptable w = false -> Interrupt s = s)
  /\ count (same EvInterrupt) (trace s)
     = if interruptable w then count_occ action_eq_dec acts CallInterrupt
       else 0%nat.
Proof.
  intros Hrun.
  pose proof (run_worker acts _ _ Hrun) as Hw. simpl in Hw.
  split; [reflexivity|]. unfold Interrupt. rewrite Hw.
  split; [intros ->; reflexivity|]. split; [intros ->; reflexivity|].
  rewrite (run_interrupts acts _ _ Hrun). reflexivity.
Qed.

Lemma Interrupt_forwards_iff_interruptable_witness :
  (exists s, run one_job (init full) = Some s
     /\ Interrupt s = emit EvInterrupt s
     /\ count (same EvInterrupt) (trace s) = 1%nat)
  /\ (exists s, run one_job (init plain) = Some s
     /\ Interrupt s = s
     /\ count (same EvInterrupt) (trace s) = 0%nat).
Proof.
  split.
  - eexists. split; [vm_compute; reflexivity|].
    destruct (Interrupt_forwards_iff_interruptable full one_job _
                ltac:(vm_compute; reflexivity)) as (_ & Hyes & _ & Hn).
    split; [apply Hyes; reflexivity | exact Hn].
  - eexists. split; [vm_compute; reflexivity|].
    destruct (Interrupt_forwards_iff_interruptable plain one_job _
                ltac:(vm_compute; reflexivity)) as (_ & _ & Hno & Hn).
    split; [apply Hno; reflexivity | exact Hn].
Defined.

(** *** Further properties of the wrapper *)

Lemma collect_snoc {A : Type} (f : event -> option A) l x :
  collect f (l ++ [x])
  = collect f l ++ match f x with Some a => [a] | None => [] end.
Proof.
  induction l as [|e l IH]; simpl.
  - destruct (f x); reflexivity.
  - destruct (f e); rewrite IH; reflexivity.
Qed.

Lemma count_since_snoc mark f l x :
  count_since mark f (l ++ [x])
  = if mark x then O
    else if f x then S (count_since mark f l) else count_since mark f l.
Proof. unfold count_since. rewrite fold_left_app. reflexivity. Qed.

Lemma step_signal a s s' : signal_inv s -> step a s = Some s' -> signal_inv s'.
Proof.
  intros Hc Hstep. destruct s as [[rc jc oc po w] lp cp jp tr].
  unfold signal_inv, signalled, received in *. simpl in *.
  destruct a; step_inv Hstep; try destruct lp; snoc_simpl; lia.
Qed.

Lemma step_one_signal a s s' :
  signal_inv s -> one_signal_per_job (trace s) -> step a s = Some s' ->
  one_signal_per_job (trace s').
Proof.
  intros Hc Ht Hstep. destruct s as [[rc jc oc po w] lp cp jp tr].
  unfold signal_inv, signalled, received in *. simpl in *.
  destruct a; step_inv Hstep; grow one_signal_per_job;
    unfold signalled, received; snoc_simpl; try exact I; lia.
Qed.

Lemma run_one_signal acts : forall s s',
  signal_inv s -> one_signal_per_job (trace s) -> run acts s = Some s' ->
  signal_inv s' /\ one_signal_per_job (trace s').
Proof.
  induction acts as [|a acts IH]; intros s s' Hc Ht; simpl.
  - intros H; inversion H; subst; auto.
  - destruct (step a s) as [s1|] eqn:Hs; [|discriminate].
    apply IH; [eapply step_signal | eapply step_one_signal]; eauto.
Qed.

(** X1.  Ready signals and job receipts take turns, a signal first: Loop
    sends a ready signal only when every earlier signal has been answered
    by a job, and takes a job only when it has one signal out. *)
Theorem ready_and_job_take_turns w acts s :
  run acts (init w) = Some s ->
  one_signal_per_job (trace s)
  /\ (received (trace s) <= signalled (trace s) <= S (received (trace s)))%nat.
Proof.
  intros Hrun.
  destruct (run_one_signal acts (init w) s) as [Hc Ht]; auto.
  - reflexivity.
  - apply each_prefix_nil.
  - split; [exact Ht|]. unfold signal_inv in Hc. rewrite Hc.
    destruct (loop_at s); simpl; lia.
Qed.

Lemma ready_and_job_take_turns_witness :
  exists s, run one_job (init full) = Some s
  /\ one_signal_per_job (trace s)
  /\ (received (trace s) <= signalled (trace s) <= S (received (trace s)))%nat.
Proof.
  eexists. split; [vm_compute; reflexivity|].
  apply (ready_and_job_take_turns full one_job). vm_compute; reflexivity.
Defined.

Ltac collect_simpl :=
  unfold inputs, calls, results, outputs in *; simpl in *;
  rewrite ?collect_snoc in *; simpl in *;
  rewrite ?app_nil_r, ?map_app in *; simpl in *.

Lemma step_order a s s' : order_inv s -> step a s = Some s' -> order_inv s'.
Proof.
  intros Hc Hstep. destruct s as [[rc jc oc po w] lp cp jp tr].
  unfold order_inv in *. simpl in *.
  destruct a; step_inv Hstep; try destruct lp; collect_simpl;
    use_hyps; repeat split; congruence.
Qed.

Lemma run_order acts : forall s s',
  order_inv s -> run acts s = Some s' -> order_inv s'.
Proof.
  induction acts as [|a acts IH]; intros s s' Hc; simpl.
  - intros H; inversion H; subst; auto.
  - destruct (step a s) as [s1|] eqn:Hs; [|discriminate].
    apply IH. eapply step_order; eauto.
Qed.

(** X2.  Jobs are run in the order they arrive and results leave in the
    same order, none lost and none twice: the inputs of the calls of [Job]
    that have returned are the inputs received, and the values sent on the
    output channel are the values [Job] returned, each up to the one job
    that is under way; outside the job cycle nothing is under way. *)
Theorem results_in_order w acts s :
  run acts (init w) = Some s ->
  (exists p, inputs (trace s) = map fst (results (trace s)) ++ p
             /\ (length p <= 1)%nat)
  /\ (exists q, map snd (results (trace s)) = outputs (trace s) ++ q
              /\ (length q <= 1)%nat)
  /\ (in_cycle (loop_at s) = false ->
      inputs (trace s) = map fst (results (trace s))
      /\ outputs (trace s) = map snd (results (trace s))).
Proof.
  intros Hrun.
  assert (Ho : order_inv (init w)) by (repeat split).
  pose proof (run_order acts _ _ Ho Hrun) as H. unfold order_inv in H.
  destruct (loop_at s); simpl in *; destruct H as (H1 & H2 & H3);
    (split; [|split]);
    try (intros; split; congruence); try discriminate.
  all: try (exists []; rewrite app_nil_r; split; [congruence | simpl; lia]).
  - exists [d]. split; [congruence | simpl; lia].
  - exists [d]. split; [congruence | simpl; lia].
  - exists [r]. split; [congruence | simpl; lia].
Qed.

Lemma results_in_order_witness :
  exists s, run one_job (init full) = Some s
  /\ inputs (trace s) = [10] /\ results (trace s) = [(10, 20)]
  /\ outputs (trace s) = [20]
  /\ (inputs (trace s) = map fst (results (trace s))
      /\ outputs (trace s) = map snd (results (trace s))).
Proof.
  eexists. split; [vm_compute; reflexivity|].
  split; [reflexivity|]. split; [reflexivity|]. split; [reflexivity|].
  destruct (results_in_order full one_job _ ltac:(vm_compute; reflexivity))
    as (_ & _ & Hidle).
  apply Hidle. reflexivity.
Defined.

Lemma step_closed_poll a s s' :
  wf s -> closed_poll_inv s -> step a s = Some s' -> closed_poll_inv s'.
Proof.
  intros Hwf Hinv Hstep.
  pose proof (wf_job s Hwf) as Hjc. pose proof (wf_flag s Hwf) as Hfl.
  pose proof (wf_fresh s Hwf) as Hfr. clear Hwf.
  destruct s as [[rc jc oc po w] lp cp jp tr].
  unfold closed_poll_inv in *. simpl in *. subst jc po.
  destruct a; step_inv Hstep; simpl; intros Hcl; try discriminate;
    try (destruct (Hfr eq_refl) as [Hfr1 _]; congruence);
    try specialize (Hinv Hcl); rewrite ?count_since_snoc; simpl in *;
    try lia; try destruct lp; simpl in *; try discriminate; lia.
Qed.

Lemma run_closed_poll acts : forall s s',
  wf s -> closed_poll_inv s -> run acts s = Some s' -> closed_poll_inv s'.
Proof.
  induction acts as [|a acts IH]; intros s s' Hwf Hc; simpl.
  - intros H; inversion H; subst; auto.
  - destruct (step a s) as [s1|] eqn:Hs; [|discriminate].
    apply IH; [eapply step_wf | eapply step_closed_poll]; eauto.
Qed.

(** X3.  Once [Close] has returned, however unready the worker, Loop calls
    [Ready] at most once more and sleeps at most once more. *)
Theorem polling_ends_with_Close w acts s :
  run acts (init w) = Some s ->
  close_at s = CReturned ->
  (count_since (same (EvStore 0)) is_Ready (trace s) <= 1)%nat
  /\ (count_since (same (EvStore 0)) is_Sleep (trace s) <= 1)%nat.
Proof.
  intros Hrun Hcl.
  assert (Hi : closed_poll_inv (init w)) by (intros H; discriminate).
  destruct (run_closed_poll acts _ _ (init_wf w) Hi Hrun Hcl) as [H1 H2].
  split; lia.
Qed.

Lemma polling_ends_with_Close_witness :
  exists s, run closed_while_asleep (init plain) = Some s
  /\ count_since (same (EvStore 0)) is_Ready (trace s) = 1%nat
  /\ (count_since (same (EvStore 0)) is_Ready (trace s) <= 1)%nat
  /\ (count_since (same (EvStore 0)) is_Sleep (trace s) <= 1)%nat.
Proof.
  eexists. split; [vm_compute; reflexivity|]. split; [reflexivity|].
  apply (polling_ends_with_Close plain closed_while_asleep).
  - vm_compute; reflexivity.
  - reflexivity.
Defined.

(** X4.  Once [Close] has returned, shutting down can always be
    completed, also with a worker that is never ready: if the calls of
    the worker return and what Loop sends is received, Loop leaves its
    polling, finds the job channel closed and returns, and Join
    returns. *)
Theorem shutdown_completes w acts s :
  run acts (init w) = Some s ->
  close_at s = CReturned ->
  exists s', run (shutdown s) s = Some s'
             /\ loop_at s' = LReturned /\ join_at s' = JReturned.
Proof.
  intros Hrun Hcl.
  destruct (run_wf acts _ _ (init_wf w) Hrun)
    as [Hr Ho Hj Hf Hfresh Hleave H72 Hbroke].
  destruct s as [[rc jc oc po [ext intr]] lp cp jp tr]. simpl in *.
  subst rc jc oc po cp. unfold shutdown. simpl loop_at. simpl join_at.
  destruct lp; try (destruct (Hfresh eq_refl); discriminate);
    destruct jp as [|[|]| |];
    try (specialize (H72 eq_refl); discriminate);
    try (specialize (Hbroke eq_refl); discriminate);
    destruct ext; eexists;
    (split; [vm_compute; reflexivity | split; reflexivity]).
Qed.

Lemma shutdown_completes_witness :
  exists s, run closed_while_asleep (init plain) = Some s
  /\ shutdown s = [LoopStep; LoopStep; LoopStep; CallJoin; CallJoin;
                   CallJoin; CallJoin]
  /\ exists s', run (shutdown s) s = Some s'
                /\ loop_at s' = LReturned /\ join_at s' = JReturned.
Proof.
  eexists. split; [vm_compute; reflexivity|]. split; [reflexivity|].
  apply (shutdown_completes plain closed_while_asleep).
  - vm_compute; reflexivity.
  - reflexivity.
Defined.

Lemma step_pending a s s' r :
  wf s -> loop_at s = LOutput r -> join_at s = J71 ->
  no_output_receiver [a] = true -> step a s = Some s' ->
  loop_at s' = LOutput r /\ join_at s' = J71.
Proof.
  intros Hwf Hl Hj Ha Hstep.
  pose proof (wf_ready s Hwf) as Hrc. clear Hwf.
  destruct s as [[rc jc oc po wk] lp cp jp tr]. simpl in *. subst lp jp rc.
  destruct a; try discriminate; step_inv Hstep; auto.
Qed.

Lemma run_pending acts : forall s s' r,
  wf s -> loop_at s = LOutput r -> join_at s = J71 ->
  no_output_receiver acts = true -> run acts s = Some s' ->
  wf s' /\ loop_at s' = LOutput r /\ join_at s' = J71.
Proof.
  induction acts as [|a acts IH]; intros s s' r Hwf Hl Hj Ha; simpl run.
  - intros H; inversion H; subst; auto.
  - destruct (step a s) as [s1|] eqn:Hs; [|discriminate].
    simpl in Ha. apply andb_true_iff in Ha. destruct Ha as [Ha1 Ha2].
    destruct (step_pending a s s1 r) as [Hl1 Hj1]; auto.
    { simpl. rewrite Ha1. reflexivity. }
    apply IH; auto. eapply step_wf; eauto.
Qed.

(** X5.  A result that nobody takes keeps Join from returning: while Loop
    waits to send on the output channel and Join waits at its first
    receive on the ready channel, nothing but a receive from the output
    channel gets either of them further, not even [Close] or [Interrupt];
    Join does not return and [Terminate] is not called. *)
Theorem Join_waits_for_pending_result w acts s r more s' :
  run acts (init w) = Some s ->
  loop_at s = LOutput r ->
  join_at s = J71 ->
  no_output_receiver more = true ->
  run more s = Some s' ->
  loop_at s' = LOutput r /\ join_at s' = J71
  /\ step CallJoin s' = None
  /\ count (same EvTerminate) (trace s') = O.
Proof.
  intros Hrun Hl Hj Hmore Hrun'.
  pose proof (run_wf acts _ _ (init_wf w) Hrun) as Hwf.
  destruct (run_pending more s s' r Hwf Hl Hj Hmore Hrun') as (Hwf' & Hl' & Hj').
  assert (Hall : run (acts ++ more) (init w) = Some s').
  { rewrite run_app, Hrun. exact Hrun'. }
  pose proof (run_once _ _ _ (init_wf w) (init_once w) Hall) as [_ _ Ht _ _ _ _].
  split; [exact Hl'|]. split; [exact Hj'|]. split.
  - pose proof (wf_ready s' Hwf') as Hrc.
    destruct s' as [[rc jc oc po wk] lp cp jp tr]. simpl in *. subst.
    reflexivity.
  - rewrite Ht, Hj'. rewrite andb_false_r. reflexivity.
Qed.

Lemma Join_waits_for_pending_result_witness :
  exists s s', run abandoned_job (init full) = Some s
  /\ run [CallInterrupt; CallInterrupt] s = Some s'
  /\ close_at s' = CReturned
  /\ loop_at s' = LOutput 20 /\ join_at s' = J71
  /\ step CallJoin s' = None
  /\ count (same EvTerminate) (trace s') = O.
Proof.
  eexists. eexists. split; [vm_compute; reflexivity|].
  split; [vm_compute; reflexivity|]. split; [reflexivity|].
  eapply (Join_waits_for_pending_result full abandoned_job _ 20
            [CallInterrupt; CallInterrupt]);
    vm_compute; reflexivity.
Defined.

(** X6.  [wrapper.Close()] can run only after [Open] and only once: its
    first statement closes the job channel, which panics on the nil
    channel of a wrapper not yet opened and on the closed channel of a
    wrapper already closed.  So the job channel is closed at most once. *)
Theorem Close_only_once_after_Open w acts s :
  run acts (init w) = Some s ->
  (step CallClose s <> None <->
     (started (loop_at s) = true /\ close_at s = C62) \/ close_at s = C65)
  /\ (count (same EvCloseJob) (trace s) <= 1)%nat.
Proof.
  intros Hrun.
  pose proof (run_wf acts _ _ (init_wf w) Hrun) as Hwf.
  pose proof (run_once _ _ _ (init_wf w) (init_once w) Hrun) as [_ _ _ Hc _ _ _].
  pose proof (wf_job s Hwf) as Hjc. pose proof (wf_fresh s Hwf) as Hfr.
  split.
  - destruct s as [[rc jc oc po wk] lp cp jp tr]. simpl in *. subst jc.
    unfold Close. simpl.
    destruct lp; destruct cp; simpl; split;
      try (intros H; exfalso; apply H; reflexivity);
      try (intros _; discriminate);
      try (intros [[H1 H2]|H]; discriminate);
      try (intros _; left; split; reflexivity);
      try (intros _; right; reflexivity).
  - rewrite Hc. destruct (close_at s); simpl; lia.
Qed.

Lemma Close_only_once_after_Open_witness :
  step CallClose (init full) = None
  /\ exists s, run one_job (init full) = Some s
     /\ step CallClose s = None
     /\ count (same EvCloseJob) (trace s) = 1%nat.
Proof.
  split.
  - destruct (Close_only_once_after_Open full [] (init full) eq_refl) as [Hiff _].
    destruct (step CallClose (init full)) eqn:E; [|reflexivity].
    exfalso. assert (H : @Some system s <> None) by discriminate.
    apply Hiff in H. destruct H as [[H _]|H]; discriminate.
  - eexists. split; [vm_compute; reflexivity|]. split; reflexivity.
Defined.

Lemma replay_snoc l e : replay (l ++ [e]) = drive (replay l) e.
Proof. unfold replay. rewrite fold_left_app. reflexivity. Qed.

Lemma step_dummy a s s' :
  wf s -> handshake_inv s -> dummy_inv s -> step a s = Some s' -> dummy_inv s'.
Proof.
  intros Hwf Hh Hd Hstep.
  pose proof (wf_broke s Hwf) as Hbroke.
  pose proof (wf_fresh s Hwf) as Hfresh. clear Hwf.
  destruct s as [[rc jc oc po [ext intr]] lp cp jp tr].
  unfold dummy_inv, handshake_inv in *. simpl in *.
  destruct Hd as (He & Hi & Hr).
  destruct a; step_inv Hstep; simpl;
    rewrite ?replay_snoc, ?last_such_snoc; simpl;
    rewrite ?andb_false_r, ?andb_true_r in *; simpl in *;
    try (repeat split; auto; try discriminate; fail).
  - (* Open, with Initialize *)
    destruct (Hfresh eq_refl) as [_ ->]. repeat split; auto.
  - (* a round of Join *)
    destruct readyOpen; simpl; rewrite ?andb_true_r; repeat split; auto.
  - (* Terminate *)
    specialize (Hbroke eq_refl). subst lp. simpl in Hi. rewrite Hi.
    repeat split; auto.
  - (* Job is called *)
    destruct Hh as [_ Hcall]. rewrite (Hr Hcall).
    repeat split; auto. discriminate.
Qed.

Lemma run_dummy acts : forall s s',
  wf s -> handshake_inv s -> dummy_inv s -> run acts s = Some s' -> dummy_inv s'.
Proof.
  induction acts as [|a acts IH]; intros s s' Hwf Hh Hd; simpl.
  - intros H; inversion H; subst; auto.
  - destruct (step a s) as [s1|] eqn:Hs; [|discriminate].
    apply IH; [eapply step_wf | eapply step_handshake | eapply step_dummy];
      eauto.
Qed.

Lemma echo_results l :
  answers_as_dummy l -> map snd (results l) = map fst (results l).
Proof.
  unfold results. induction l as [|e l IH]; intros H; simpl.
  - reflexivity.
  - assert (Hl : answers_as_dummy l) by (intros x Hx; apply H; right; exact Hx).
    pose proof (H e (or_introl eq_refl)) as He.
    destruct e; simpl; auto. simpl in He. subst. f_equal. auto.
Qed.

(** X7.  The test workers never complain, whatever the run: [Job] is not
    called without [Ready] having been polled since the last job, and
    [Terminate] is not called without [Initialize].  And when Loop is
    outside the job cycle, the worker having answered as the test worker
    does, the values sent on the output channel are the inputs received. *)
Theorem test_workers_never_complain w acts s :
  run acts (init w) = Some s ->
  errors (dummy (replay (trace s))) = O
  /\ (answers_as_dummy (trace s) -> in_cycle (loop_at s) = false ->
      outputs (trace s) = inputs (trace s)).
Proof.
  intros Hrun. split.
  - assert (Hd : dummy_inv (init w)).
    { unfold dummy_inv. simpl. rewrite andb_false_r.
      repeat split; auto; discriminate. }
    destruct (run_dummy acts _ _ (init_wf w) I Hd Hrun) as [He _]. exact He.
  - intros Hans Hidle.
    assert (Ho : order_inv (init w)) by (repeat split).
    pose proof (run_order acts _ _ Ho Hrun) as H. unfold order_inv in H.
    pose proof (echo_results _ Hans) as Hecho.
    destruct (loop_at s); try discriminate; destruct H as (H1 & H2 & H3);
      congruence.
Qed.

Lemma test_workers_never_complain_witness :
  exists s, run echo_job (init full) = Some s
  /\ replay (trace s) = mkDummyExt (mkDummy true 0) false
  /\ errors (dummy (replay (trace s))) = O
  /\ outputs (trace s) = inputs (trace s).
Proof.
  eexists. split; [vm_compute; reflexivity|]. split; [reflexivity|].
  destruct (test_workers_never_complain full echo_job _
              ltac:(vm_compute; reflexivity)) as [He Hecho].
  split; [exact He|]. apply Hecho; [|reflexivity].
  intros e He'. simpl in He'.
  repeat (destruct He' as [<-|He']; [simpl; auto|]). contradiction.
Defined.

Lemma step_never_ready a s s' :
  wf s -> never_ready_inv s -> step a s = Some s' -> never_ready_inv s'.
Proof.
  intros Hwf Hinv Hstep.
  pose proof (wf_job s Hwf) as Hjc. pose proof (wf_flag s Hwf) as Hfl.
  clear Hwf.
  destruct s as [[rc jc oc po w] lp cp jp tr].
  unfold never_ready_inv, received, signalled in *. simpl in *. subst jc po.
  destruct a; step_inv Hstep; simpl; rewrite ?count_snoc; simpl;
    rewrite ?Nat.add_0_r; intros Hn; try lia;
    specialize (Hinv Hn);
    destruct Hinv as [Hrecv [[Hw Hs]|[Hc Hw]]];
    try discriminate; subst;
    repeat match goal with
           | ph : phase |- _ => destruct ph
           | p : close_pc |- _ => destruct p
           end;
    simpl in *; try discriminate;
    (split; [lia|]); auto; try (left; split; [reflexivity|lia]).
Qed.

Lemma run_never_ready acts : forall s s',
  wf s -> never_ready_inv s -> run acts s = Some s' -> never_ready_inv s'.
Proof.
  induction acts as [|a acts IH]; intros s s' Hwf Hc; simpl.
  - intros H; inversion H; subst; auto.
  - destruct (step a s) as [s1|] eqn:Hs; [|discriminate].
    apply IH; [eapply step_wf | eapply step_never_ready]; eauto.
Qed.

(** X13.  A worker whose [Ready] has never returned true has been given
    no job; and as long as [Close] has not returned, Loop is still in its
    first polling loop and has sent no ready signal. *)
Theorem unready_worker_gets_no_job w acts s :
  run acts (init w) = Some s ->
  count (same (EvReady true)) (trace s) = O ->
  received (trace s) = O
  /\ (close_at s <> CReturned ->
      warming (loop_at s) = true /\ signalled (trace s) = O).
Proof.
  intros Hrun Hn.
  assert (Hi : never_ready_inv (init w)).
  { intros _. split; [reflexivity|]. left. split; reflexivity. }
  destruct (run_never_ready acts _ _ (init_wf w) Hi Hrun Hn) as [Hr Hd].
  split; [exact Hr|]. intros Hc.
  destruct Hd as [Hd|[Hd _]]; [exact Hd | contradiction].
Qed.

Lemma unready_worker_gets_no_job_witness :
  exists s, run never_ready (init plain) = Some s
  /\ close_at s = C65
  /\ received (trace s) = O
  /\ warming (loop_at s) = true /\ signalled (trace s) = O.
Proof.
  eexists. split; [vm_compute; reflexivity|]. split; [reflexivity|].
  destruct (unready_worker_gets_no_job plain never_ready _
              ltac:(vm_compute; reflexivity) eq_refl) as [Hr Hw].
  split; [exact Hr|]. apply Hw. discriminate.
Defined.

End GoroutineProofs.
